(* ===================================================================== *)
(* Pomodoro timer with sound (js/main.js): session timing and lifecycle  *)
(* ===================================================================== *)
(* A shallow embedding of the script js/main.js.  The script keeps its
   state in module-level variables, reads and writes a handful of DOM
   elements, and talks to the browser (clock, setTimeout,
   requestAnimationFrame, localStorage, the Notification API) and to the
   Tone.js sound library.  Every function of the script becomes a
   computation in a small reader/state/exception monad:

     - the reader part [Env] is what the outside world answers during one
       event handler (clock readings, which collaborators are present,
       whether a call into them raises);
     - the state part [State] is the script's variables, the session
       objects they point to, the DOM properties the script writes, and
       the browser's pending timers;
     - an exception aborts the handler and leaves the state as it was at
       the point of the throw, as an uncaught exception does in a browser
       event handler.

   Numbers.  All numbers the script computes with are integers (seconds,
   and milliseconds since the epoch, below 2^50), on which the
   floating-point additions, subtractions and multiplications used are
   exact; they are modelled in Z.  The one division, by 1000 before
   [Math.round], is modelled by its exact result.
   Timestamps are the number of milliseconds since the epoch: the script
   stores [new Date().toISOString()] and reads it back with
   [new Date(text)], which returns the same instant. *)

From Stdlib Require Import ZArith Lia.
From Stdlib Require Ascii String DecimalZ.
From stdpp Require Import base list.

#[local] Open Scope Z_scope.

(* --------------------------------------------------------------------- *)
(* JavaScript primitives used by the script                              *)
(* --------------------------------------------------------------------- *)

Module JS.

(** A string is its sequence of UTF-16 code units. *)
Definition jsstring : Type := list N.

(** White space and line terminators, the characters removed by
    [String.prototype.trim]. *)
Definition is_white_space (c : N) : bool :=
  existsb (N.eqb c)
    [9; 10; 11; 12; 13; 32; 160; 5760;
     8192; 8193; 8194; 8195; 8196; 8197; 8198; 8199; 8200; 8201; 8202;
     8232; 8233; 8239; 8287; 12288; 65279]%N.

Fixpoint trimStart (s : jsstring) : jsstring :=
  match s with
  | [] => []
  | c :: s' => if is_white_space c then trimStart s' else s
  end.

Definition trimEnd (s : jsstring) : jsstring := rev (trimStart (rev s)).

Definition trim (s : jsstring) : jsstring := trimEnd (trimStart s).

(** Truthiness of a string: the empty string is the only falsy one. *)
Definition truthy (s : jsstring) : bool :=
  match s with [] => false | _ :: _ => true end.

(** [Math.round (ms / 1000)] for an integer [ms]: the nearest integer,
    a tie going up, that is the floor of [ms / 1000 + 1/2]. *)
Definition Math_round_div1000 (ms : Z) : Z := (ms + 500) / 1000.

(** [a.splice (start, 1)] on an array [a]: the array that is left.  A
    negative [start] counts from the end, and a [start] outside the array
    is clamped to it, where there is nothing to remove. *)
Definition splice1 {A} (start : Z) (a : list A) : list A :=
  let len := Z.of_nat (length a) in
  let from := if start <? 0 then Z.max (len + start) 0 else Z.min start len in
  take (Z.to_nat from) a ++ drop (S (Z.to_nat from)) a.

End JS.

Import JS.

(* --------------------------------------------------------------------- *)
(* Data model                                                            *)
(* --------------------------------------------------------------------- *)

(** One entry of [session.pauses]: [{pauseTime, resumeTime}], the latter
    [null] while the pause is open. *)
Record Pause := mkPause {
  pauseTime : Z;
  resumeTime : option Z
}.

(** A session object: [{goal, startTime, endTime, duration, pauses}]. *)
Record Session := mkSession {
  goal : jsstring;
  startTime : Z;
  endTime : option Z;
  sduration : Z;            (* the field [duration] of the object *)
  pauses : list Pause
}.

(** Session objects live in a store and are referred to by reference:
    [currentSession] and the elements of [sessions] are references, so
    that [sessions.unshift(currentSession)] shares the object. *)
Definition ref : Type := nat.

Inductive Label := LStart | LPause | LResume.

(** Callbacks handed to [setTimeout]. *)
Inductive Callback :=
  | CbOnTimerEnd           (* onTimerEnd *)
  | CbClearGoalError.      (* the arrow function restoring the goal input *)

#[global] Instance Callback_eq_dec : EqDecision Callback.
Proof. solve_decision. Defined.

Record Timeout := mkTimeout {
  handle : nat;
  callback : Callback;
  delay : Z
}.

(** Calls into collaborators that leave the script, in the order made. *)
Inductive Effect :=
  | ToneStart                           (* Tone.start() *)
  | RequestPermission                   (* Notification.requestPermission() *)
  | SoundLoop                           (* the repeating two-note loop *)
  | TestSound                           (* the two notes, once *)
  | SoundStopped                        (* Transport.stop/cancel, synth.dispose *)
  | SystemNotification (who : jsstring) (* new Notification(...), its goal text *)
  | Stored (log : list Session).        (* localStorage.setItem(sessions) *)

Inductive Permission := PDefault | PGranted | PDenied.

Inductive exn :=
  | ReferenceError        (* Tone is not defined *)
  | TypeError             (* property access on null *)
  | SoundError            (* raised inside Tone.js *)
  | NotificationError     (* raised by the Notification constructor *)
  | QuotaExceededError.   (* raised by localStorage.setItem *)

(** What the world answers during one event handler. *)
Record Env := mkEnv {
  Date_now : Z;                      (* the value of Date.now() *)
  new_Date : Z;                      (* the instant of new Date() *)
  Tone_defined : bool;               (* typeof Tone !== 'undefined' *)
  Tone_Synth_throws : bool;          (* creating and starting the synth raises *)
  Notification_in_window : bool;     (* 'Notification' in window *)
  Notification_permission : Permission;
  Notification_throws : bool;        (* new Notification(...) raises *)
  localStorage_available : bool;     (* isLocalStorageAvailable() *)
  localStorage_setItem_throws : bool; (* storing the session list raises *)
  confirm_answer : bool              (* what the user answers to confirm() *)
}.

(** The script's variables. *)
Record Vars := mkVars {
  targetTime : option Z;             (* undefined until the first start *)
  timeLeft : Z;
  isRunning : bool;
  animationFrameId : option nat;
  timeoutId : option nat;
  duration : Z;
  currentSession : option ref;
  sessions : list ref;
  synth : bool                       (* a synth instance is stored *)
}.

(** The DOM properties the script writes or reads back.  Colour classes
    of the start button are left out; the red border classes and the
    placeholder of the goal input change together and are one flag. *)
Record Dom := mkDom {
  timerDisplay : Z * Z;              (* minutes and seconds shown *)
  startBtn_textContent : Label;
  durationSelect_value : Z;          (* parseInt of the selected option *)
  durationSelect_disabled : bool;
  goalInput_value : jsstring;
  goalInput_disabled : bool;
  goalInput_error : bool;            (* red border, "A goal is required" *)
  completionModal_visible : bool;
  sessionLog : list Session          (* rows of the table and jsonOutput *)
}.

(** Browser-side state. *)
Record Browser := mkBrowser {
  timeouts : list Timeout;           (* pending setTimeout callbacks *)
  frames : list nat;                 (* pending updateDisplayLoop frames *)
  next_handle : nat;
  localStorage : option (list Session);  (* item 'pomodoroSessions' *)
  effects : list Effect
}.

Record State := mkState {
  vars : Vars;
  heap : list Session;
  dom : Dom;
  browser : Browser
}.

(* --------------------------------------------------------------------- *)
(* Assignments                                                           *)
(* --------------------------------------------------------------------- *)

Definition upd_vars (f : Vars → Vars) (s : State) : State :=
  mkState (f (vars s)) (heap s) (dom s) (browser s).
Definition upd_dom (f : Dom → Dom) (s : State) : State :=
  mkState (vars s) (heap s) (f (dom s)) (browser s).
Definition upd_browser (f : Browser → Browser) (s : State) : State :=
  mkState (vars s) (heap s) (dom s) (f (browser s)).
Definition set_heap (h : list Session) (s : State) : State :=
  mkState (vars s) h (dom s) (browser s).

Definition set_targetTime (v : option Z) : State → State :=
  upd_vars (λ x, mkVars v (timeLeft x) (isRunning x) (animationFrameId x)
    (timeoutId x) (duration x) (currentSession x) (sessions x) (synth x)).
Definition set_timeLeft (v : Z) : State → State :=
  upd_vars (λ x, mkVars (targetTime x) v (isRunning x) (animationFrameId x)
    (timeoutId x) (duration x) (currentSession x) (sessions x) (synth x)).
Definition set_isRunning (v : bool) : State → State :=
  upd_vars (λ x, mkVars (targetTime x) (timeLeft x) v (animationFrameId x)
    (timeoutId x) (duration x) (currentSession x) (sessions x) (synth x)).
Definition set_animationFrameId (v : option nat) : State → State :=
  upd_vars (λ x, mkVars (targetTime x) (timeLeft x) (isRunning x) v
    (timeoutId x) (duration x) (currentSession x) (sessions x) (synth x)).
Definition set_timeoutId (v : option nat) : State → State :=
  upd_vars (λ x, mkVars (targetTime x) (timeLeft x) (isRunning x)
    (animationFrameId x) v (duration x) (currentSession x) (sessions x)
    (synth x)).
Definition set_duration (v : Z) : State → State :=
  upd_vars (λ x, mkVars (targetTime x) (timeLeft x) (isRunning x)
    (animationFrameId x) (timeoutId x) v (currentSession x) (sessions x)
    (synth x)).
Definition set_currentSession (v : option ref) : State → State :=
  upd_vars (λ x, mkVars (targetTime x) (timeLeft x) (isRunning x)
    (animationFrameId x) (timeoutId x) (duration x) v (sessions x) (synth x)).
Definition set_sessions (v : list ref) : State → State :=
  upd_vars (λ x, mkVars (targetTime x) (timeLeft x) (isRunning x)
    (animationFrameId x) (timeoutId x) (duration x) (currentSession x) v
    (synth x)).
Definition set_synth (v : bool) : State → State :=
  upd_vars (λ x, mkVars (targetTime x) (timeLeft x) (isRunning x)
    (animationFrameId x) (timeoutId x) (duration x) (currentSession x)
    (sessions x) v).

Definition set_timerDisplay (v : Z * Z) : State → State :=
  upd_dom (λ d, mkDom v (startBtn_textContent d) (durationSelect_value d)
    (durationSelect_disabled d) (goalInput_value d) (goalInput_disabled d)
    (goalInput_error d) (completionModal_visible d) (sessionLog d)).
Definition set_startBtn_textContent (v : Label) : State → State :=
  upd_dom (λ d, mkDom (timerDisplay d) v (durationSelect_value d)
    (durationSelect_disabled d) (goalInput_value d) (goalInput_disabled d)
    (goalInput_error d) (completionModal_visible d) (sessionLog d)).
Definition set_durationSelect_value (v : Z) : State → State :=
  upd_dom (λ d, mkDom (timerDisplay d) (startBtn_textContent d) v
    (durationSelect_disabled d) (goalInput_value d) (goalInput_disabled d)
    (goalInput_error d) (completionModal_visible d) (sessionLog d)).
Definition set_durationSelect_disabled (v : bool) : State → State :=
  upd_dom (λ d, mkDom (timerDisplay d) (startBtn_textContent d)
    (durationSelect_value d) v (goalInput_value d) (goalInput_disabled d)
    (goalInput_error d) (completionModal_visible d) (sessionLog d)).
Definition set_goalInput_value (v : jsstring) : State → State :=
  upd_dom (λ d, mkDom (timerDisplay d) (startBtn_textContent d)
    (durationSelect_value d) (durationSelect_disabled d) v
    (goalInput_disabled d) (goalInput_error d) (completionModal_visible d)
    (sessionLog d)).
Definition set_goalInput_disabled (v : bool) : State → State :=
  upd_dom (λ d, mkDom (timerDisplay d) (startBtn_textContent d)
    (durationSelect_value d) (durationSelect_disabled d) (goalInput_value d)
    v (goalInput_error d) (completionModal_visible d) (sessionLog d)).
Definition set_goalInput_error (v : bool) : State → State :=
  upd_dom (λ d, mkDom (timerDisplay d) (startBtn_textContent d)
    (durationSelect_value d) (durationSelect_disabled d) (goalInput_value d)
    (goalInput_disabled d) v (completionModal_visible d) (sessionLog d)).
Definition set_completionModal_visible (v : bool) : State → State :=
  upd_dom (λ d, mkDom (timerDisplay d) (startBtn_textContent d)
    (durationSelect_value d) (durationSelect_disabled d) (goalInput_value d)
    (goalInput_disabled d) (goalInput_error d) v (sessionLog d)).
Definition set_sessionLog (v : list Session) : State → State :=
  upd_dom (λ d, mkDom (timerDisplay d) (startBtn_textContent d)
    (durationSelect_value d) (durationSelect_disabled d) (goalInput_value d)
    (goalInput_disabled d) (goalInput_error d) (completionModal_visible d) v).

Definition set_timeouts (v : list Timeout) : State → State :=
  upd_browser (λ b, mkBrowser v (frames b) (next_handle b) (localStorage b)
    (effects b)).
Definition set_frames (v : list nat) : State → State :=
  upd_browser (λ b, mkBrowser (timeouts b) v (next_handle b) (localStorage b)
    (effects b)).
Definition set_next_handle (v : nat) : State → State :=
  upd_browser (λ b, mkBrowser (timeouts b) (frames b) v (localStorage b)
    (effects b)).
Definition set_localStorage (v : option (list Session)) : State → State :=
  upd_browser (λ b, mkBrowser (timeouts b) (frames b) (next_handle b) v
    (effects b)).
Definition set_effects (v : list Effect) : State → State :=
  upd_browser (λ b, mkBrowser (timeouts b) (frames b) (next_handle b)
    (localStorage b) v).

(* --------------------------------------------------------------------- *)
(* The monad of event handlers                                           *)
(* --------------------------------------------------------------------- *)

Inductive Res (A : Type) :=
  | Done (a : A) (s : State)
  | Throw (e : exn) (s : State).
Arguments Done {A} a s.
Arguments Throw {A} e s.

(** The state a handler leaves behind, whether it returned or threw. *)
Definition final {A} (r : Res A) : State :=
  match r with Done _ s => s | Throw _ s => s end.

Definition returns {A} (r : Res A) : bool :=
  match r with Done _ _ => true | Throw _ _ => false end.

Definition M (A : Type) : Type := Env → State → Res A.

#[global] Instance M_ret : MRet M := λ A a _ s, Done a s.
#[global] Instance M_bind : MBind M := λ A B f m env s,
  match m env s with
  | Done a s' => f a env s'
  | Throw e s' => Throw e s'
  end.

Definition asks {A} (f : Env → A) : M A := λ env s, Done (f env) s.
Definition gets {A} (f : State → A) : M A := λ _ s, Done (f s) s.
Definition modify (f : State → State) : M unit := λ _ s, Done tt (f s).
Definition throw {A} (e : exn) : M A := λ _ s, Throw e s.
Definition when (b : bool) (m : M unit) : M unit :=
  if b then m else mret tt.
Definition effect (e : Effect) : M unit :=
  modify (λ s, set_effects (effects (browser s) ++ [e]) s).

(* --------------------------------------------------------------------- *)
(* Browser services                                                      *)
(* --------------------------------------------------------------------- *)

(** Reading a property of a session object through a reference.  A
    reference held by the script always points to an object; the error
    branch is the store's only. *)
Definition deref (l : ref) : M Session := λ _ s,
  match heap s !! l with
  | Some r => Done r s
  | None => Throw TypeError s
  end.

(** Writing a property of a session object: the object at [l] becomes
    [r]. *)
Definition assign (l : ref) (r : Session) : M unit :=
  modify (λ s, set_heap (<[l := r]> (heap s)) s).

(** An object literal: a new object, and the reference to it. *)
Definition alloc (r : Session) : M ref := λ _ s,
  Done (length (heap s)) (set_heap (heap s ++ [r]) s).

(** [setTimeout(cb, ms)]: the callback is pending under a new handle. *)
Definition setTimeout (cb : Callback) (ms : Z) : M nat := λ _ s,
  let h := next_handle (browser s) in
  Done h (set_next_handle (S h)
           (set_timeouts (timeouts (browser s) ++ [mkTimeout h cb ms]) s)).

(** Removing the entry with handle [id] from a list of pending callbacks;
    an [undefined] or stale [id] removes nothing. *)
Definition cancel {A} (key : A → nat) (id : option nat) (pending : list A)
  : list A :=
  match id with
  | Some h => filter (λ t, key t ≠ h) pending
  | None => pending
  end.

(** [clearTimeout(id)] *)
Definition clearTimeout (id : option nat) : M unit :=
  modify (λ s, set_timeouts (cancel handle id (timeouts (browser s))) s).

(** [requestAnimationFrame(updateDisplayLoop)] *)
Definition requestAnimationFrame : M nat := λ _ s,
  let h := next_handle (browser s) in
  Done h (set_next_handle (S h) (set_frames (frames (browser s) ++ [h]) s)).

(** [cancelAnimationFrame(id)] *)
Definition cancelAnimationFrame (fid : option nat) : M unit :=
  modify (λ s, set_frames (cancel (λ f, f) fid (frames (browser s))) s).

(** The session objects the array [sessions] refers to, as values: what
    [JSON.stringify(sessions)] and the rendering of the table read. *)
Definition session_values (s : State) : list Session :=
  omap (λ l, heap s !! l) (sessions (vars s)).

(* --------------------------------------------------------------------- *)
(* Local storage and data handling                                       *)
(* --------------------------------------------------------------------- *)

(** Checks if localStorage is available: the outcome of the script's
    probe, a [setItem] and [removeItem] inside [try]. *)
Definition isLocalStorageAvailable : M bool := asks localStorage_available.

(** Renders the session data into the log table and the JSON box. *)
Definition updateSessionLog : M unit :=
  modify (λ s, set_sessionLog (session_values s) s).

(** Loads sessions from localStorage when the page loads.  [JSON.parse]
    makes new objects; the stored item is one the script wrote, a list
    of sessions. *)
Definition loadSessions : M unit :=
  ok ← isLocalStorageAvailable;
  (if ok : bool then
     stored ← gets (λ s, localStorage (browser s));
     match stored return M unit with
     | Some log =>
         modify (λ s, set_sessions (seq (length (heap s)) (length log))
                        (set_heap (heap s ++ log) s))
     | None => mret tt
     end
   else mret tt : M unit);;
  updateSessionLog.

(** Saves the current list of sessions to localStorage.  The write is
    not inside a [try]: if it raises, so does [saveSessions]. *)
Definition saveSessions : M unit :=
  ok ← isLocalStorageAvailable;
  if ok : bool then
    full ← asks localStorage_setItem_throws;
    if full : bool then throw QuotaExceededError
    else
      log ← gets session_values;
      modify (set_localStorage (Some log));;
      effect (Stored log)
  else mret tt.

(* --------------------------------------------------------------------- *)
(* Notifications and sound                                               *)
(* --------------------------------------------------------------------- *)

(** The text ['your task']. *)
Definition your_task : jsstring :=
  [121; 111; 117; 114; 32; 116; 97; 115; 107]%N.

(** Asks for permission to show notifications if not asked before. *)
Definition requestNotificationPermission : M unit :=
  present ← asks Notification_in_window;
  perm ← asks Notification_permission;
  match present : bool, perm with
  | true, PDefault => effect RequestPermission
  | _, _ => mret tt
  end.

(** Shows a system notification naming the goal of the current
    session. *)
Definition showSystemNotification : M unit :=
  present ← asks Notification_in_window;
  perm ← asks Notification_permission;
  match present : bool, perm with
  | true, PGranted =>
      cs ← gets (λ s, currentSession (vars s));
      who ← match cs : option ref with
            | Some l =>
                r ← deref l;
                mret (if truthy (goal r) then goal r else your_task)
            | None => mret your_task
            end;
      bad ← asks Notification_throws;
      if bad : bool then throw NotificationError
      else effect (SystemNotification who)
  | _, _ => mret tt
  end.

(** Plays the notification sound, a loop, and keeps the synth. *)
Definition playSound : M unit :=
  loaded ← asks Tone_defined;
  if negb loaded then mret tt : M unit
  else
    bad ← asks Tone_Synth_throws;
    if bad : bool then throw SoundError
    else
      modify (set_synth true);;
      effect SoundLoop.

(** Plays the two notes once. *)
Definition playTestSound : M unit :=
  loaded ← asks Tone_defined;
  if negb loaded then mret tt : M unit
  else
    bad ← asks Tone_Synth_throws;
    if bad : bool then throw SoundError
    else effect TestSound.

(** [Tone.start()]: a reference to an undeclared [Tone] raises. *)
Definition Tone_start : M unit :=
  loaded ← asks Tone_defined;
  if loaded : bool then effect ToneStart else throw ReferenceError.

(* --------------------------------------------------------------------- *)
(* Core timer logic                                                      *)
(* --------------------------------------------------------------------- *)

(** Updates the text of the timer display: minutes and seconds left. *)
Definition updateDisplay : M unit :=
  modify (λ s, set_timerDisplay
                 (timeLeft (vars s) / 60, Z.rem (timeLeft (vars s)) 60) s).

(** The accumulation of [endSession]'s [forEach] over the pauses: a pause
    with a [resumeTime] adds its length, an open one adds nothing. *)
Definition totalPauseTime (ps : list Pause) : Z :=
  foldl (λ acc p,
           match resumeTime p with
           | Some r => acc + (r - pauseTime p)
           | None => acc
           end) 0 ps.

(** Resets the timer to its initial state for the selected duration. *)
Definition resetTimer : M unit :=
  modify (set_isRunning false);;
  id ← gets (λ s, timeoutId (vars s));
  clearTimeout id;;
  fid ← gets (λ s, animationFrameId (vars s));
  cancelAnimationFrame fid;;
  minutes ← gets (λ s, durationSelect_value (dom s));
  modify (set_duration (minutes * 60));;
  modify (λ s, set_timeLeft (duration (vars s)) s);;
  updateDisplay;;
  modify (set_startBtn_textContent LStart);;
  modify (set_durationSelect_disabled false);;
  modify (set_goalInput_disabled false);;
  modify (set_goalInput_value []);;
  modify (set_currentSession None).

(** Ends the current session, logs it, and resets the timer. *)
Definition endSession (isFinished : bool) : M unit :=
  modify (set_isRunning false);;
  id ← gets (λ s, timeoutId (vars s));
  clearTimeout id;;
  fid ← gets (λ s, animationFrameId (vars s));
  cancelAnimationFrame fid;;
  cs ← gets (λ s, currentSession (vars s));
  match cs : option ref return M unit with
  | Some l =>
      r ← deref l;
      match endTime r return M unit with
      | None =>
          now ← asks new_Date;
          let r1 := mkSession (goal r) (startTime r) (Some now)
                      (sduration r) (pauses r) in
          assign l r1;;
          let total := totalPauseTime (pauses r1) in
          let r2 := mkSession (goal r1) (startTime r1) (endTime r1)
                      (Math_round_div1000 ((now - startTime r1) - total))
                      (pauses r1) in
          assign l r2;;
          modify (λ s, set_sessions (l :: sessions (vars s)) s);;
          updateSessionLog;;
          saveSessions
      | Some _ => mret tt
      end
  | None => mret tt
  end;;
  resetTimer;;
  when isFinished (modify (set_goalInput_disabled false)).

(** Called by the timeout when the timer duration has elapsed. *)
Definition onTimerEnd : M unit :=
  playSound;;
  showSystemNotification;;
  modify (set_completionModal_visible true);;
  endSession true.

(** One frame of the display loop.  With [targetTime] still undefined the
    difference is NaN, which differs from every number and is not
    greater than 0. *)
Definition updateDisplayLoop : M unit :=
  running ← gets (λ s, isRunning (vars s));
  if negb running then mret tt : M unit
  else
    now ← asks Date_now;
    target ← gets (λ s, targetTime (vars s));
    left ← gets (λ s, timeLeft (vars s));
    match target : option Z return M unit with
    | Some t =>
        let newTimeLeft := Math_round_div1000 (t - now) in
        when (negb (newTimeLeft =? left))
          (modify (set_timeLeft (if 0 <? newTimeLeft then newTimeLeft else 0));;
           updateDisplay)
    | None =>
        modify (set_timeLeft 0);;
        updateDisplay
    end;;
    left' ← gets (λ s, timeLeft (vars s));
    when (0 <? left')
      (h ← requestAnimationFrame;
       modify (set_animationFrameId (Some h))).

(** Starts or pauses the timer. *)
Definition startTimer : M unit :=
  Tone_start;;
  requestNotificationPermission;;
  running ← gets (λ s, isRunning (vars s));
  if negb running then
    text ← gets (λ s, goalInput_value (dom s));
    if negb (truthy (trim text)) then
      modify (set_goalInput_error true);;
      _ ← setTimeout CbClearGoalError 2000;
      mret tt
    else
      modify (set_isRunning true);;
      now ← asks Date_now;
      left ← gets (λ s, timeLeft (vars s));
      modify (set_targetTime (Some (now + left * 1000)));;
      id ← setTimeout CbOnTimerEnd (left * 1000);
      modify (set_timeoutId (Some id));;
      fid ← requestAnimationFrame;
      modify (set_animationFrameId (Some fid));;
      modify (set_startBtn_textContent LPause);;
      modify (set_durationSelect_disabled true);;
      modify (set_goalInput_disabled true);;
      cs ← gets (λ s, currentSession (vars s));
      match cs : option ref return M unit with
      | None =>
          at_ ← asks new_Date;
          l ← alloc (mkSession text at_ None 0 []);
          modify (set_currentSession (Some l))
      | Some l =>
          r ← deref l;
          let n := length (pauses r) in
          match pauses r !! (n - 1)%nat return M unit with
          | Some lastPause =>
              match resumeTime lastPause return M unit with
              | None =>
                  at_ ← asks new_Date;
                  assign l (mkSession (goal r) (startTime r) (endTime r)
                              (sduration r)
                              (<[(n - 1)%nat :=
                                   mkPause (pauseTime lastPause) (Some at_)]>
                                 (pauses r)))
              | Some _ => mret tt
              end
          | None => mret tt          (* pauses.length is 0 *)
          end
      end
  else
    modify (set_isRunning false);;
    id ← gets (λ s, timeoutId (vars s));
    clearTimeout id;;
    fid ← gets (λ s, animationFrameId (vars s));
    cancelAnimationFrame fid;;
    modify (set_startBtn_textContent LResume);;
    cs ← gets (λ s, currentSession (vars s));
    match cs : option ref return M unit with
    | Some l =>
        r ← deref l;
        at_ ← asks new_Date;
        assign l (mkSession (goal r) (startTime r) (endTime r) (sduration r)
                    (pauses r ++ [mkPause at_ None]))
    | None => throw TypeError
    end.

(** Changes the timer duration when a new value is selected. *)
Definition changeDuration : M unit :=
  running ← gets (λ s, isRunning (vars s));
  when (negb running)
    (minutes ← gets (λ s, durationSelect_value (dom s));
     modify (set_duration (minutes * 60));;
     modify (λ s, set_timeLeft (duration (vars s)) s);;
     updateDisplay).

(** Deletes a specific session from the log; [index] is the [data-index]
    attribute of the button clicked. *)
Definition deleteSession (index : Z) : M unit :=
  modify (λ s, set_sessions (splice1 index (sessions (vars s))) s);;
  updateSessionLog;;
  saveSessions.

(** Clears all sessions from the log, once the user confirms. *)
Definition clearAllSessions : M unit :=
  yes ← asks confirm_answer;
  if yes : bool then
    modify (set_sessions []);;
    updateSessionLog;;
    saveSessions
  else mret tt.

(* --------------------------------------------------------------------- *)
(* Event listeners and initialization                                    *)
(* --------------------------------------------------------------------- *)

(** [if (currentSession) endSession(); resetTimer();] *)
Definition resetBtn_click : M unit :=
  cs ← gets (λ s, currentSession (vars s));
  when (bool_decide (is_Some (cs : option ref))) (endSession false);;
  resetTimer.

(** [endSession()], the parameter taking its default [false]. *)
Definition endBtn_click : M unit := endSession false.

(** Hides the modal, stops the sound and disposes of the synth. *)
Definition closeModalBtn_click : M unit :=
  modify (set_completionModal_visible false);;
  sy ← gets (λ s, synth (vars s));
  when sy (effect SoundStopped;; modify (set_synth false)).

(** [Tone.start(); playTestSound();] *)
Definition testSoundBtn_click : M unit :=
  Tone_start;;
  playTestSound.

(** The arrow function given to [setTimeout] after a rejected start. *)
Definition clearGoalError : M unit := modify (set_goalInput_error false).

(** Running a callback that has come due. *)
Definition run_callback (cb : Callback) : M unit :=
  match cb with
  | CbOnTimerEnd => onTimerEnd
  | CbClearGoalError => clearGoalError
  end.

(** What can happen to the page.  Besides the listeners of the script:
    the user editing the goal or choosing a duration (possible only while
    the control is enabled), a pending timeout or animation frame coming
    due. *)
Inductive Event :=
  | StartClick                   (* start button, or the space bar *)
  | ResetClick
  | EndClick
  | CloseModalClick
  | TestSoundClick
  | ClearAllClick
  | DeleteClick (index : nat)    (* the delete button of row [index] *)
  | SelectDuration (minutes : Z) (* change event of the duration select *)
  | TypeGoal (text : jsstring)
  | TimeoutDue (h : nat)
  | FrameDue (h : nat).

(** The options of the duration select in index.html. *)
Definition duration_options : list Z := [5; 10; 15; 20; 25; 30; 45; 60; 90].

(** When an event can occur: a disabled control takes no input, a row
    must be there to be deleted, a callback must be pending to come due. *)
Definition enabled (ev : Event) (s : State) : Prop :=
  match ev with
  | DeleteClick i => (i < length (sessions (vars s)))%nat
  | SelectDuration m =>
      durationSelect_disabled (dom s) = false ∧ m ∈ duration_options
  | TypeGoal _ => goalInput_disabled (dom s) = false
  | TimeoutDue h => ∃ t, t ∈ timeouts (browser s) ∧ handle t = h
  | FrameDue h => h ∈ frames (browser s)
  | _ => True
  end.

(** The listener an event runs. *)
Definition dispatch (ev : Event) : M unit :=
  match ev with
  | StartClick => startTimer
  | ResetClick => resetBtn_click
  | EndClick => endBtn_click
  | CloseModalClick => closeModalBtn_click
  | TestSoundClick => testSoundBtn_click
  | ClearAllClick => clearAllSessions
  | DeleteClick i => deleteSession (Z.of_nat i)
  | SelectDuration m =>
      modify (set_durationSelect_value m);;
      changeDuration
  | TypeGoal text => modify (set_goalInput_value text)
  | TimeoutDue h =>
      due ← gets (λ s, filter (λ t, handle t = h) (timeouts (browser s)));
      clearTimeout (Some h);;
      match due : list Timeout return M unit with
      | t :: _ => run_callback (callback t)
      | [] => mret tt
      end
  | FrameDue h =>
      cancelAnimationFrame (Some h);;
      updateDisplayLoop
  end.

(** The page as loaded, before the script's last two lines run: the
    initial values of the variables, the DOM of index.html, and whatever
    an earlier visit left in local storage. *)
Definition page_loaded (stored : option (list Session)) : State :=
  mkState
    (mkVars None (25 * 60) false None None (25 * 60) None [] false)
    []
    (mkDom (25, 0) LStart 25 false [] false false false [])
    (mkBrowser [] [] 0 stored []).

(** [loadSessions(); updateDisplay();] *)
Definition initialization : M unit :=
  loadSessions;;
  updateDisplay.

(** The states of the page: the one after initialization, and those any
    sequence of events leads to from there, a handler that raises leaving
    the state it had reached. *)
Inductive reachable : State → Prop :=
  | reach_init env stored :
      reachable (final (initialization env (page_loaded stored)))
  | reach_step env ev s :
      reachable s → enabled ev s → reachable (final (dispatch ev env s)).

(* --------------------------------------------------------------------- *)
(* Utility functions                                                     *)
(* --------------------------------------------------------------------- *)
(* [formatDate] renders an instant with [toLocaleString]; what it prints
   depends on the locale data and time zone of the browser and is not
   modelled. *)

(** String literals of the script, as code units. *)
Module Text.
Import Ascii String.
Definition lit (s : string) : jsstring :=
  map (λ c, N_of_ascii c) (list_ascii_of_string s).
Definition None_ : jsstring := lit "None".
Definition Paused_for : jsstring := lit "Paused for ".
Definition br : jsstring := lit "<br>".
Definition m_ : jsstring := lit "m ".
Definition s_ : jsstring := lit "s".
End Text.

(** The decimal digits of a number, most significant first. *)
Fixpoint digits (u : Decimal.uint) : jsstring :=
  match u with
  | Decimal.Nil => []
  | Decimal.D0 u => 48%N :: digits u
  | Decimal.D1 u => 49%N :: digits u
  | Decimal.D2 u => 50%N :: digits u
  | Decimal.D3 u => 51%N :: digits u
  | Decimal.D4 u => 52%N :: digits u
  | Decimal.D5 u => 53%N :: digits u
  | Decimal.D6 u => 54%N :: digits u
  | Decimal.D7 u => 55%N :: digits u
  | Decimal.D8 u => 56%N :: digits u
  | Decimal.D9 u => 57%N :: digits u
  end.

(** The text of an integer inside a template literal: its decimal
    digits, after a minus sign when it is negative. *)
Definition Number_toString (z : Z) : jsstring :=
  match Z.to_int z with
  | Decimal.Pos u => digits u
  | Decimal.Neg u => 45%N :: digits u
  end.

(** [parts.join(sep)] *)
Definition join (sep : jsstring) (parts : list jsstring) : jsstring :=
  match parts with
  | [] => []
  | p :: rest => p ++ concat (map (λ q, sep ++ q) rest)
  end.

(** Formats a duration in seconds to a "Xm Ys" string: [Math.floor] of
    the sixtieth, and the remainder [%], which has the sign of the
    duration.  This is what the script computes for the integers a number
    holds exactly, those below 2^53 in absolute value: on them the
    division's rounding does not reach the next integer, [%] is exact and
    a number prints with all its digits. *)
Definition formatDuration (seconds : Z) : jsstring :=
  let minutes := seconds / 60 in
  let remainingSeconds := Z.rem seconds 60 in
  Number_toString minutes ++ Text.m_
    ++ Number_toString remainingSeconds ++ Text.s_.

(** [new Date(x)] for a stored time or [null]: [null] converts to the
    number 0, the epoch. *)
Definition new_Date_of (x : option Z) : Z :=
  match x with Some t => t | None => 0 end.

(** The arrow function [formatPauses] maps over the pauses. *)
Definition formatPauses_entry (pause : Pause) : jsstring :=
  Text.Paused_for
    ++ Number_toString
         (Math_round_div1000 (new_Date_of (resumeTime pause) - pauseTime pause))
    ++ Text.s_.

(** Creates a readable summary of pause intervals. *)
Definition formatPauses (pauses : list Pause) : jsstring :=
  match pauses with
  | [] => Text.None_
  | _ :: _ => join Text.br (map formatPauses_entry pauses)
  end.

(* --------------------------------------------------------------------- *)
(* The alarm, call by call                                               *)
(* --------------------------------------------------------------------- *)
(* [playSound] above has one place where Tone.js can raise, the making of
   the synth, before [synth] is assigned, and the listener of the modal's
   OK button has none.  The script calls Tone.js twice more after it has
   assigned [synth], and three times when the modal is closed.  The
   definitions of this module follow those calls one by one; when none of
   them raises they are the definitions above. *)

(** Which of the calls into Tone.js that follow the making of the synth
    raise. *)
Record ToneCalls := mkToneCalls {
  Tone_Loop_start_throws : bool;        (* new Tone.Loop(...).start(0) *)
  Tone_Transport_start_throws : bool;   (* Tone.Transport.start() *)
  Tone_Transport_stop_throws : bool;    (* Tone.Transport.stop() *)
  Tone_Transport_cancel_throws : bool;  (* Tone.Transport.cancel() *)
  synth_dispose_throws : bool           (* synth.dispose() *)
}.

Module Alarm.

(** Plays the notification sound: the synth is stored before the loop is
    made and the transport started. *)
Definition playSound (tc : ToneCalls) : M unit :=
  loaded ← asks Tone_defined;
  if negb loaded then mret tt : M unit
  else
    bad ← asks Tone_Synth_throws;
    if bad : bool then throw SoundError
    else
      modify (set_synth true);;
      if Tone_Loop_start_throws tc then throw SoundError
      else if Tone_Transport_start_throws tc then throw SoundError
      else effect SoundLoop.

(** Called by the timeout when the timer duration has elapsed. *)
Definition onTimerEnd (tc : ToneCalls) : M unit :=
  playSound tc;;
  showSystemNotification;;
  modify (set_completionModal_visible true);;
  endSession true.

(** Hides the modal; with a synth stored, stops and cancels the
    transport, disposes of the synth and clears the variable.  The effect
    [SoundStopped] is the three calls made. *)
Definition closeModalBtn_click (tc : ToneCalls) : M unit :=
  modify (set_completionModal_visible false);;
  sy ← gets (λ s, synth (vars s));
  when sy
    (loaded ← asks Tone_defined;
     if negb loaded then throw ReferenceError
     else if Tone_Transport_stop_throws tc then throw SoundError
     else if Tone_Transport_cancel_throws tc then throw SoundError
     else if synth_dispose_throws tc then throw SoundError
     else
       effect SoundStopped;;
       modify (set_synth false)).

Definition run_callback (tc : ToneCalls) (cb : Callback) : M unit :=
  match cb with
  | CbOnTimerEnd => onTimerEnd tc
  | CbClearGoalError => clearGoalError
  end.

(** The listener an event runs; the events that do not reach Tone.js
    after the making of the synth run the listeners above. *)
Definition dispatch (tc : ToneCalls) (ev : Event) : M unit :=
  match ev with
  | CloseModalClick => closeModalBtn_click tc
  | TimeoutDue h =>
      due ← gets (λ s, filter (λ t, handle t = h) (timeouts (browser s)));
      clearTimeout (Some h);;
      match due : list Timeout return M unit with
      | t :: _ => run_callback tc (callback t)
      | [] => mret tt
      end
  | _ => dispatch ev
  end.

End Alarm.

(* ===================================================================== *)
(* Vocabulary of the properties                                          *)
(* ===================================================================== *)
(* Definitions used to state the properties: example worlds and states,
   the data model's reading of a pause, the invariant of the reachable
   states. *)

(** A world where every collaborator is present and works, at clock
    reading [t] (milliseconds). *)
Definition world (t : Z) : Env :=
  mkEnv t t true false true PGranted false true false true.

(** The letter x, as a goal. *)
Definition goal_x : jsstring := [120%N].

(** A walk through the page: load it, type a goal, start at 1 s, pause at
    11 s, resume at 16 s, end by hand at 21 s. *)
Definition demo_loaded : State :=
  final (initialization (world 0) (page_loaded None)).
Definition demo_typed : State :=
  final (dispatch (TypeGoal goal_x) (world 0) demo_loaded).
Definition demo_running : State :=
  final (dispatch StartClick (world 1000) demo_typed).
Definition demo_paused : State :=
  final (dispatch StartClick (world 11000) demo_running).
Definition demo_resumed : State :=
  final (dispatch StartClick (world 16000) demo_paused).
Definition demo_ended : State :=
  final (dispatch EndClick (world 21000) demo_resumed).

(** The length of a pause as the data model counts it: resume minus
    pause when the pause was resumed, nothing while it is open. *)
Definition completed_length (p : Pause) : Z :=
  match resumeTime p with
  | Some r => r - pauseTime p
  | None => 0
  end.

(** The sum of a list of numbers. *)
Definition sumZ (l : list Z) : Z := foldr Z.add 0 l.

(** A pause that ran from [i.1] to [i.2]. *)
Definition closed_pause (i : Z * Z) : Pause := mkPause i.1 (Some i.2).

(** What [endSession] makes of a session that has not ended. *)
Definition finalized (at_ : Z) (r : Session) : Session :=
  mkSession (goal r) (startTime r) (Some at_)
    (Math_round_div1000 ((at_ - startTime r) - totalPauseTime (pauses r)))
    (pauses r).

(** What the handlers keep true from the loading of the page on. *)
Record Inv (s : State) : Prop := mkInv {
  (* a running timer has a session and a deadline *)
  inv_running :
    isRunning (vars s) = true →
    is_Some (currentSession (vars s)) ∧ is_Some (targetTime (vars s));
  (* without a session the timer shows the selected duration and the
     controls are those of a fresh page *)
  inv_idle :
    currentSession (vars s) = None →
    timeLeft (vars s) = duration (vars s) ∧
    duration (vars s) = durationSelect_value (dom s) * 60 ∧
    startBtn_textContent (dom s) = LStart ∧
    durationSelect_disabled (dom s) = false ∧
    goalInput_disabled (dom s) = false;
  (* with a session the controls are locked and the goal is still there *)
  inv_session :
    ∀ l, currentSession (vars s) = Some l →
      is_Some (heap s !! l) ∧
      durationSelect_disabled (dom s) = true ∧
      goalInput_disabled (dom s) = true ∧
      truthy (trim (goalInput_value (dom s))) = true;
  inv_left : 0 ≤ timeLeft (vars s);
  inv_select : 0 ≤ durationSelect_value (dom s);
  inv_display :
    timerDisplay (dom s) = (timeLeft (vars s) / 60, Z.rem (timeLeft (vars s)) 60);
  (* a pending expiry is the one [timeoutId] names, of a running timer *)
  inv_expiry :
    ∀ t, t ∈ timeouts (browser s) → callback t = CbOnTimerEnd →
      isRunning (vars s) = true ∧ timeoutId (vars s) = Some (handle t)
}.

(** The session [endSession] would log: the current one, when its
    [endTime] is not set yet. *)
Definition open_session (s : State) : option (ref * Session) :=
  match currentSession (vars s) with
  | Some l =>
      match heap s !! l with
      | Some r => match endTime r with None => Some (l, r) | Some _ => None end
      | None => None
      end
  | None => None
  end.

(** Whether storing the log, if it is attempted, returns normally. *)
Definition storing_returns (env : Env) : bool :=
  negb (localStorage_available env && localStorage_setItem_throws env).

(** A session object with other pauses. *)
Definition with_pauses (ps : list Pause) (r : Session) : Session :=
  mkSession (goal r) (startTime r) (endTime r) (sduration r) ps.




(** The text the notification names the session by. *)
Definition notified_goal (r : Session) : jsstring :=
  if truthy (goal r) then goal r else your_task.


(** A page loaded with three sessions stored by earlier visits. *)
Definition demo_history : State :=
  final (initialization (world 0)
           (page_loaded
              (Some [mkSession goal_x 1000 (Some 61000) 60 [];
                     mkSession goal_x 100000 (Some 130000) 30 [];
                     mkSession goal_x 200000 (Some 215000) 10
                       [mkPause 205000 (Some 210000)]]))).

(** The walk again, with a frame of the display loop at 5 s (1496 s are
    left) before the pause at 11 s. *)
Definition demo_ticked : State :=
  final (dispatch (FrameDue 1) (world 5000) demo_running).
Definition demo_ticked_paused : State :=
  final (dispatch StartClick (world 11000) demo_ticked).

(** The exception a handler ended with, if any. *)
Definition raised {A} (r : Res A) : option exn :=
  match r with Done _ _ => None | Throw e _ => Some e end.

(** A world in which Tone.js is loaded and no call into a collaborator
    raises. *)
Definition collaborators_work (env : Env) : bool :=
  Tone_defined env && negb (Tone_Synth_throws env)
  && negb (Notification_throws env) && negb (localStorage_setItem_throws env).

(** Frames of the display loop coming due one after the other, each in
    its world. *)
Definition ticks (envs : list Env) (s : State) : State :=
  foldl (λ st env, final (updateDisplayLoop env st)) s envs.

(** The expiries among the pending timeouts. *)
Definition expiries (l : list Timeout) : list Timeout :=
  filter (λ t, callback t = CbOnTimerEnd) l.

(** How the start button and the duration follow the state. *)
Record InvUI (s : State) : Prop := mkInvUI {
  ui_session_label :
    is_Some (currentSession (vars s)) → startBtn_textContent (dom s) ≠ LStart;
  ui_running_label :
    isRunning (vars s) = true → startBtn_textContent (dom s) = LPause;
  ui_resume_label :
    startBtn_textContent (dom s) = LResume → isRunning (vars s) = false;
  ui_duration : duration (vars s) = durationSelect_value (dom s) * 60;
  ui_option : durationSelect_value (dom s) ∈ duration_options
}.

(** The log refers to session objects that exist, to each once, and to
    the current session only once it has an [endTime]. *)
Record InvLog (s : State) : Prop := mkInvLog {
  log_valid :
    ∀ l, l ∈ sessions (vars s) → (l < length (heap s))%nat;
  log_current_valid :
    ∀ l, currentSession (vars s) = Some l → (l < length (heap s))%nat;
  log_nodup : NoDup (sessions (vars s));
  log_current :
    ∀ l r, currentSession (vars s) = Some l → l ∈ sessions (vars s) →
      heap s !! l = Some r → is_Some (endTime r)
}.

(** At most one frame of the display loop is pending, the one
    [animationFrameId] names, and only while the timer runs; the same for
    the expiry and [timeoutId]. *)
Record InvPending (s : State) : Prop := mkInvPending {
  pending_frames :
    frames (browser s) = [] ∨
    (isRunning (vars s) = true ∧
     ∃ f, frames (browser s) = [f] ∧ animationFrameId (vars s) = Some f);
  pending_expiry :
    expiries (timeouts (browser s)) = [] ∨
    (isRunning (vars s) = true ∧
     ∃ t, expiries (timeouts (browser s)) = [t] ∧
          timeoutId (vars s) = Some (handle t))
}.

(** The current session carries the text of the goal box. *)
Definition InvGoal (s : State) : Prop :=
  ∀ l r, currentSession (vars s) = Some l → heap s !! l = Some r →
    goal r = goalInput_value (dom s).

(** Every session of a log has an [endTime]: none is rendered as
    ['In progress']. *)
Definition all_ended (log : list Session) : Prop :=
  ∀ r, r ∈ log → is_Some (endTime r).

(** The table shows the log as it is, and the current session is not
    in the log. *)
Definition table_shows_log (s : State) : Prop :=
  sessionLog (dom s) = session_values s ∧
  ∀ l, currentSession (vars s) = Some l → l ∉ sessions (vars s).

(** A stored synth, that is a sound loop that plays, has the completion
    modal visible. *)
Definition alarm_has_modal (s : State) : Prop :=
  synth (vars s) = true → completionModal_visible (dom s) = true.

(** Handles of pending timeouts: each was given out before, to that
    timeout only, and [timeoutId] names none of a callback that clears
    the goal error; while the error shows, such a callback is pending. *)
Record InvHandles (s : State) : Prop := mkInvHandles {
  handles_fresh :
    ∀ t, t ∈ timeouts (browser s) → (handle t < next_handle (browser s))%nat;
  handles_timeoutId :
    ∀ h, timeoutId (vars s) = Some h → (h < next_handle (browser s))%nat;
  handles_expiry :
    ∀ t, t ∈ timeouts (browser s) → callback t = CbClearGoalError →
      timeoutId (vars s) ≠ Some (handle t);
  handles_unique :
    ∀ t t', t ∈ timeouts (browser s) → t' ∈ timeouts (browser s) →
      handle t = handle t' → t = t';
  handles_error :
    goalInput_error (dom s) = true →
    ∃ t, t ∈ timeouts (browser s) ∧ callback t = CbClearGoalError ∧
         delay t = 2000
}.

(** A world where local storage is there but full: storing the log
    raises. *)
Definition world_with_full_storage (t : Z) : Env :=
  mkEnv t t true false true PGranted false true true true.

(** The walk after its frame at 5 s, with the reset button pressed at
    21 s in such a world. *)
Definition demo_reset_unsaved : State :=
  final (resetBtn_click (world_with_full_storage 21000) demo_ticked).

(** The integers a number of the script holds exactly
    ([Number.isSafeInteger]). *)
Definition safe_integer (z : Z) : Prop := - 2 ^ 53 < z < 2 ^ 53.

(** No call into Tone.js after the making of the synth raises. *)
Definition no_faults : ToneCalls := mkToneCalls false false false false false.

(* ===================================================================== *)
(* Properties                                                            *)
(* ===================================================================== *)

Arguments cancel : simpl never.

(** Symbolic execution of a handler: expose the monad and compute. *)
Ltac unfold_monad :=
  unfold mbind, M_bind, mret, M_ret, gets, asks, modify, when, effect, throw
    in *.

Ltac unfold_script :=
  unfold dispatch, initialization, run_callback, clearGoalError,
    testSoundBtn_click, closeModalBtn_click, endBtn_click, resetBtn_click,
    clearAllSessions, deleteSession, changeDuration, startTimer,
    updateDisplayLoop, onTimerEnd, endSession, resetTimer, updateDisplay,
    Tone_start, playTestSound, playSound, showSystemNotification,
    requestNotificationPermission, saveSessions, loadSessions,
    updateSessionLog, isLocalStorageAvailable, requestAnimationFrame,
    cancelAnimationFrame, clearTimeout, setTimeout, alloc, assign, deref
    in *.

Ltac exec := unfold_script; unfold_monad; cbn in *.

(* --------------------------------------------------------------------- *)
(* The JavaScript primitives                                             *)
(* --------------------------------------------------------------------- *)

Section Primitives.

(** [Math_round_div1000] is rounding to the nearest second, ties up. *)
Lemma Math_round_div1000_nearest ms :
  1000 * Math_round_div1000 ms - 500 ≤ ms < 1000 * Math_round_div1000 ms + 500.
Proof.
  unfold Math_round_div1000.
  pose proof (Z.div_mod (ms + 500) 1000 ltac:(lia)).
  pose proof (Z.mod_pos_bound (ms + 500) 1000 ltac:(lia)).
  lia.
Qed.

Lemma Math_round_div1000_exact k : Math_round_div1000 (1000 * k) = k.
Proof.
  unfold Math_round_div1000.
  symmetry. apply (Z.div_unique_pos _ _ _ 500); lia.
Qed.

Lemma trimStart_blank s :
  trimStart s = [] ↔ forallb is_white_space s = true.
Proof.
  induction s as [|c s IH]; [cbn; tauto|].
  change (trimStart (c :: s))
    with (if is_white_space c then trimStart s else c :: s).
  change (forallb is_white_space (c :: s))
    with (is_white_space c && forallb is_white_space s).
  destruct (is_white_space c); cbn; [exact IH|].
  split; discriminate.
Qed.

(** What [trimStart] leaves starts with a character that is not white
    space. *)
Lemma trimStart_head s c t :
  trimStart s = c :: t → is_white_space c = false.
Proof.
  induction s as [|d s IH]; [discriminate|].
  change (trimStart (d :: s))
    with (if is_white_space d then trimStart s else d :: s).
  destruct (is_white_space d) eqn:Ed; [exact IH|].
  intros [= <- _]. exact Ed.
Qed.

(** A goal is rejected exactly when it has nothing but white space. *)
Lemma trim_blank s :
  truthy (trim s) = false ↔ forallb is_white_space s = true.
Proof.
  rewrite <- trimStart_blank. unfold trim, trimEnd. split.
  - intros H.
    destruct (trimStart s) as [|c t] eqn:Et; [reflexivity|exfalso].
    apply trimStart_head in Et.
    destruct (trimStart (rev (c :: t))) as [|d u] eqn:Er.
    + apply trimStart_blank in Er. rewrite forallb_forall in Er.
      rewrite Er in Et; [discriminate|].
      rewrite <- in_rev. now left.
    + destruct (rev (d :: u)) eqn:E; [|discriminate].
      apply (f_equal (@length _)) in E.
      rewrite length_rev in E. discriminate.
  - intros ->. reflexivity.
Qed.

(** Removing one element at a valid index. *)
Lemma splice1_valid {A} (i : nat) (a : list A) :
  (i < length a)%nat → splice1 (Z.of_nat i) a = take i a ++ drop (S i) a.
Proof.
  intros Hi. unfold splice1.
  destruct (Z.ltb_spec (Z.of_nat i) 0) as [?|_]; [lia|].
  rewrite Z.min_l by lia. now rewrite Nat2Z.id.
Qed.

End Primitives.

(* --------------------------------------------------------------------- *)
(* Net duration of a finalized session                                   *)
(* --------------------------------------------------------------------- *)

Section NetDuration.

(** The loop of [endSession], from any value of the accumulator. *)
Lemma totalPauseTime_from acc ps :
  foldl (λ acc p,
           match resumeTime p with
           | Some r => acc + (r - pauseTime p)
           | None => acc
           end) acc ps
  = acc + sumZ (map completed_length ps).
Proof.
  revert acc. induction ps as [|p ps IH]; intros acc.
  - unfold sumZ. cbn. lia.
  - cbn [foldl map]. rewrite IH.
    change (sumZ (completed_length p :: map completed_length ps))
      with (completed_length p + sumZ (map completed_length ps)).
    unfold completed_length at 2. destruct (resumeTime p); lia.
Qed.

(** The loop of [endSession] adds up the completed pauses. *)
Lemma totalPauseTime_sum ps :
  totalPauseTime ps = sumZ (map completed_length ps).
Proof. unfold totalPauseTime. rewrite totalPauseTime_from. lia. Qed.

(** Pauses that were all resumed count with their full lengths. *)
Lemma completed_length_closed intervals :
  map completed_length (map closed_pause intervals)
  = map (λ i, i.2 - i.1) intervals.
Proof. induction intervals as [|i t IH]; cbn; [|rewrite IH]; reflexivity. Qed.

(** Reading back a field that was just assigned. *)
Lemma lookup_assigned (h : list Session) l r a b :
  h !! l = Some r → <[l := b]> (<[l := a]> h) !! l = Some b.
Proof.
  intros H. apply lookup_lt_Some in H.
  apply list_lookup_insert_eq. now rewrite length_insert.
Qed.

End NetDuration.

Section Finalization.

Variables (isFinished : bool) (env : Env) (s : State) (l : ref) (r : Session).
Hypothesis Hcurrent : currentSession (vars s) = Some l.
Hypothesis Hobject : heap s !! l = Some r.
Hypothesis Hopen : endTime r = None.

(** The session is finalized and logged whether or not storing the log
    succeeds afterwards. *)
Lemma endSession_finalizes :
  let s' := final (endSession isFinished env s) in
  heap s' = <[l := finalized (new_Date env) r]> (heap s) ∧
  heap s' !! l = Some (finalized (new_Date env) r) ∧
  sessions (vars s') = l :: sessions (vars s).
Proof.
  exec. rewrite Hcurrent. cbn. rewrite Hobject, Hopen. cbn.
  pose proof (lookup_lt_Some _ _ _ Hobject) as Hlt.
  destruct (localStorage_available env),
    (localStorage_setItem_throws env), isFinished; cbn;
    rewrite list_insert_insert_eq;
    (repeat split; [now apply list_lookup_insert_eq]).
Qed.

End Finalization.

(** C2. Finalizing a session that has not ended stores it with
    [endTime] the instant of the call and [duration] the rounded number
    of seconds of [(endTime - startTime)] minus the completed pauses; a
    pause without [resumeTime] counts for nothing, and when every pause
    has one the amount subtracted is the sum of [resumeTime - pauseTime].
    The rounding is to the nearest second: the stored duration is within
    half a second of the net time. *)
Theorem endSession_net_duration isFinished env s l r :
  currentSession (vars s) = Some l →
  heap s !! l = Some r →
  endTime r = None →
  let s' := final (endSession isFinished env s) in
  ∃ r',
    heap s' !! l = Some r' ∧
    sessions (vars s') = l :: sessions (vars s) ∧
    goal r' = goal r ∧ startTime r' = startTime r ∧ pauses r' = pauses r ∧
    endTime r' = Some (new_Date env) ∧
    sduration r'
    = Math_round_div1000
        ((new_Date env - startTime r') - sumZ (map completed_length (pauses r'))) ∧
    (∀ intervals, pauses r' = map closed_pause intervals →
       sduration r'
       = Math_round_div1000
           ((new_Date env - startTime r')
            - sumZ (map (λ i, i.2 - i.1) intervals))) ∧
    (let net := (new_Date env - startTime r')
                - sumZ (map completed_length (pauses r')) in
     1000 * sduration r' - 500 ≤ net < 1000 * sduration r' + 500).
Proof.
  intros Hc Hl He s'.
  destruct (endSession_finalizes isFinished env s l r Hc Hl He)
    as (_ & Hh & Hss).
  exists (finalized (new_Date env) r). cbn.
  split; [assumption|]. split; [assumption|].
  do 4 (split; [reflexivity|]).
  split; [|split].
  - now rewrite totalPauseTime_sum.
  - intros intervals ->.
    now rewrite totalPauseTime_sum, completed_length_closed.
  - rewrite totalPauseTime_sum. apply Math_round_div1000_nearest.
Qed.

(** The walk ends with 20 s elapsed and 5 s paused: 15 s are stored. *)
Lemma endSession_net_duration_witness :
  ∃ r',
    heap demo_ended !! 0%nat = Some r' ∧
    sessions (vars demo_ended) = [0%nat] ∧
    endTime r' = Some 21000 ∧ sduration r' = 15.
Proof.
  destruct (endSession_net_duration false (world 21000) demo_resumed 0%nat
              (mkSession goal_x 1000 None 0 [mkPause 11000 (Some 16000)])
              eq_refl eq_refl eq_refl)
    as (r' & Hh & Hs & _ & Hst & Hp & He & Hd & _).
  exists r'. rewrite Hst, Hp in Hd. now repeat split.
Defined.

(* --------------------------------------------------------------------- *)
(* Deleting a session from the log                                       *)
(* --------------------------------------------------------------------- *)

(** C10. Deleting the row at a valid index removes the record at that
    index and no other: the list is one shorter, the records before the
    index keep their place, those after it move up by one, and no record
    is altered; the table shows the new list, which is also what is
    stored when local storage takes it. *)
Theorem deleteSession_removes_exactly env s (i : nat) :
  (i < length (sessions (vars s)))%nat →
  let before := sessions (vars s) in
  let s' := final (deleteSession (Z.of_nat i) env s) in
  let after := sessions (vars s') in
  after = take i before ++ drop (S i) before ∧
  S (length after) = length before ∧
  (∀ j, (j < i)%nat → after !! j = before !! j) ∧
  (∀ j, (i ≤ j)%nat → after !! j = before !! S j) ∧
  heap s' = heap s ∧
  sessionLog (dom s') = omap (λ l, heap s !! l) after ∧
  (storing_returns env = true → localStorage_available env = true →
   localStorage (browser s') = Some (omap (λ l, heap s !! l) after)).
Proof.
  intros Hi before s' after.
  assert (Hafter : after = take i before ++ drop (S i) before
                   ∧ heap s' = heap s
                   ∧ sessionLog (dom s') = omap (λ l, heap s !! l) after
                   ∧ (storing_returns env = true →
                      localStorage_available env = true →
                      localStorage (browser s')
                      = Some (omap (λ l, heap s !! l) after))).
  { subst after s' before. unfold storing_returns. exec.
    unfold session_values.
    destruct (localStorage_available env),
      (localStorage_setItem_throws env); cbn;
      (split; [now apply splice1_valid | done]). }
  destruct Hafter as (Hafter & Hheap & Hlog & Hstore). fold before in Hi.
  assert (Hlen : length (take i before) = i)
    by (rewrite length_take; lia).
  repeat split; try assumption.
  - rewrite Hafter, length_app, length_drop, Hlen. lia.
  - intros j Hj. rewrite Hafter, lookup_app_l by lia.
    now apply lookup_take_lt.
  - intros j Hj. rewrite Hafter, lookup_app_r by lia.
    rewrite Hlen, lookup_drop. f_equal. lia.
Qed.

Lemma deleteSession_removes_exactly_witness :
  sessions (vars demo_history) = [0; 1; 2]%nat ∧
  sessions (vars (final (deleteSession 1 (world 0) demo_history)))
  = [0; 2]%nat.
Proof.
  split; [reflexivity|].
  exact (proj1 (deleteSession_removes_exactly (world 0) demo_history 1
                  ltac:(vm_compute; lia))).
Defined.

(* --------------------------------------------------------------------- *)
(* What holds in every state the page can reach                          *)
(* --------------------------------------------------------------------- *)

Arguments trim : simpl never.
Arguments truthy : simpl never.
Arguments Math_round_div1000 : simpl never.
Arguments splice1 : simpl never.

(** Case analysis on what a handler branches on, innermost test first. *)
Ltac crunch :=
  repeat (match goal with
          | |- context [match ?x with _ => _ end] =>
              lazymatch x with
              | context [match _ with _ => _ end] => fail
              | _ => destruct x eqn:?
              end
          end; cbn).

Section Invariant.

(** Assigning to an object, or making a new one, leaves every reference
    valid. *)
Lemma is_Some_insert (h : list Session) k x l :
  is_Some (h !! l) → is_Some (<[k := x]> h !! l).
Proof. rewrite !lookup_lt_is_Some, length_insert. done. Qed.

Lemma is_Some_alloc (h : list Session) x :
  is_Some ((h ++ [x]) !! length h).
Proof. rewrite lookup_lt_is_Some, length_app. cbn. lia. Qed.

(** The select offers positive durations only. *)
Lemma duration_options_pos m : m ∈ duration_options → 0 < m.
Proof.
  unfold duration_options. intros H.
  repeat (apply elem_of_cons in H as [->|H]; [lia|]).
  by apply elem_of_nil in H.
Qed.

(** What survives a cancellation was pending and is not the one
    cancelled. *)
Lemma elem_of_cancel {A} (key : A → nat) id (l : list A) x :
  x ∈ cancel key id l → x ∈ l ∧ id ≠ Some (key x).
Proof.
  unfold cancel. destruct id as [h|]; [|done].
  rewrite list_elem_of_filter. intros [Hne Hin]. split; [done|congruence].
Qed.

End Invariant.

Create HintDb store.
#[local] Hint Resolve is_Some_insert is_Some_alloc : store.

(** Bring the tests a branch has passed and the invariant of the state
    before into a usable form, and confront them. *)
Ltac use_inv :=
  repeat match goal with
         | H : negb _ = true |- _ => apply negb_true_iff in H
         | H : negb _ = false |- _ => apply negb_false_iff in H
         | H : _ ∧ _ |- _ => destruct H
         | H : (?a =? ?b) = true |- _ => apply Z.eqb_eq in H
         | H : (?a <? ?b) = true |- _ => apply Z.ltb_lt in H
         | H : (?a <? ?b) = false |- _ => apply Z.ltb_ge in H
         | H : Some _ = Some _ |- _ => injection H as H
         | H : is_Some ?x, H' : ?x = None |- _ =>
             rewrite H' in H; destruct H as [? H]; discriminate H
         | H : _ ∈ duration_options |- _ => apply duration_options_pos in H
         | H : _ ∈ cancel _ _ _ |- _ => apply elem_of_cancel in H
         | H : _ ∈ _ ++ _ |- _ => apply elem_of_app in H as [H|H]
         | H : _ ∈ [_] |- _ => apply list_elem_of_singleton in H
         | H : _ ∈ [] |- _ => by apply elem_of_nil in H
         | H : ?x = ?x → _ |- _ => specialize (H eq_refl)
         | H : ∀ l, Some ?r = Some l → _ |- _ => specialize (H _ eq_refl)
         | H : ?a = Some _, H' : ?a = Some _ |- _ =>
             rewrite H in H'; injection H' as H'
         | H : ?a = Some _, H' : ?a = None |- _ =>
             rewrite H in H'; discriminate H'
         | H : ?a = true, H' : ?a = false |- _ =>
             rewrite H in H'; discriminate H'
         | H : ?P → _, H' : ?P |- _ => specialize (H H')
         | H : ∀ l, ?c = Some l → _, H' : ?c = Some _ |- _ =>
             specialize (H _ H')
         | H : ∀ t, t ∈ ?l → _, H' : _ ∈ ?l |- _ => specialize (H _ H')
         end.

(** The invariant of the state after, clause by clause. *)
Ltac close_inv :=
  split; cbn; intros; use_inv; subst; cbn in *;
  repeat split;
  first [ done | lia | congruence | by eauto with store | idtac ].

Section Reachable.

(** The invariant holds once the page is initialized, and every
    listener, returning or raising, preserves it. *)
Lemma Inv_init env stored :
  Inv (final (initialization env (page_loaded stored))).
Proof. exec. crunch; close_inv. Qed.

Lemma Inv_step env ev s :
  Inv s → enabled ev s → Inv (final (dispatch ev env s)).
Proof.
  intros [Hrun Hidle Hsess Hleft Hsel Hdisp Hexp] Hen.
  destruct ev.
  all: exec; crunch.
  all: close_inv.
Qed.

Lemma reachable_Inv s : reachable s → Inv s.
Proof.
  induction 1 as [env stored | env ev s _ IH Hen].
  - apply Inv_init.
  - now apply Inv_step.
Qed.

End Reachable.

(* --------------------------------------------------------------------- *)
(* Starting without a goal                                               *)
(* --------------------------------------------------------------------- *)



(* --------------------------------------------------------------------- *)
(* Finalizing at most once                                               *)
(* --------------------------------------------------------------------- *)

Section AtMostOnce.

(** After [endSession], however it went, nothing is left to log. *)
Lemma endSession_closes isFinished env s :
  open_session (final (endSession isFinished env s)) = None.
Proof.
  unfold open_session. exec.
  destruct (currentSession (vars s)) as [l|] eqn:Hc; cbn;
    [|destruct isFinished; reflexivity].
  destruct (heap s !! l) as [r|] eqn:Hl; cbn; [|now rewrite Hc, Hl].
  destruct (endTime r) eqn:He; cbn; [destruct isFinished; reflexivity|].
  destruct (localStorage_available env),
    (localStorage_setItem_throws env), isFinished; cbn;
    try reflexivity.
  all: rewrite Hc.
  all: erewrite lookup_assigned by eassumption; reflexivity.
Qed.

(** With nothing to log, [endSession] logs nothing and touches no
    session object. *)
Lemma endSession_nothing_to_log isFinished env s :
  open_session s = None →
  let s' := final (endSession isFinished env s) in
  sessions (vars s') = sessions (vars s) ∧ heap s' = heap s ∧
  localStorage (browser s') = localStorage (browser s) ∧
  sessionLog (dom s') = sessionLog (dom s) ∧
  effects (browser s') = effects (browser s).
Proof.
  unfold open_session. intros Hopen. exec.
  crunch; simplify_eq/=; try done.
Qed.

(** Nor does [onTimerEnd], whose notifier part touches no session. *)
Lemma onTimerEnd_nothing_to_log env s :
  open_session s = None →
  let s' := final (onTimerEnd env s) in
  sessions (vars s') = sessions (vars s) ∧ heap s' = heap s ∧
  localStorage (browser s') = localStorage (browser s) ∧
  sessionLog (dom s') = sessionLog (dom s).
Proof.
  unfold open_session. intros Hopen. exec.
  crunch; simplify_eq/=; try done.
  all: match goal with
       | H : endTime ?r = None, H' : context [endTime ?r] |- _ =>
           rewrite H in H'; discriminate H'
       end.
Qed.

(** Ending a session cancels the expiry that was pending for it. *)
Lemma endSession_cancels_expiry isFinished env s t :
  Inv s →
  t ∈ timeouts (browser (final (endSession isFinished env s))) →
  callback t ≠ CbOnTimerEnd.
Proof.
  intros [_ _ _ _ _ _ Hexp] Hin Hcb.
  assert (Hc : t ∈ cancel handle (timeoutId (vars s)) (timeouts (browser s))).
  { revert Hin. exec. crunch; try done.
    all: intros Hin; now apply elem_of_cancel in Hin as [Hin _]. }
  apply elem_of_cancel in Hc as [Hc Hne].
  destruct (Hexp t Hc Hcb) as [_ Hid]. congruence.
Qed.

End AtMostOnce.

(** C1. Once [endSession] has run, a second [endSession], or
    [onTimerEnd] coming after it, appends nothing to [sessions], leaves
    every session object (its [endTime], [duration] and [pauses]) as it
    is, and stores nothing; over the two calls the log has grown by one
    record exactly when there was a session to finalize, and by none
    otherwise.  In a reachable state, moreover, [endSession] leaves no
    expiry pending that could still fire. *)
Theorem endSession_at_most_once f1 f2 env1 env2 env3 s :
  let s1 := final (endSession f1 env1 s) in
  let s2 := final (endSession f2 env2 s1) in
  let s3 := final (onTimerEnd env3 s1) in
  (sessions (vars s2) = sessions (vars s1) ∧ heap s2 = heap s1 ∧
   localStorage (browser s2) = localStorage (browser s1)) ∧
  (sessions (vars s3) = sessions (vars s1) ∧ heap s3 = heap s1 ∧
   localStorage (browser s3) = localStorage (browser s1)) ∧
  sessions (vars s2)
  = match open_session s with
    | Some (l, _) => l :: sessions (vars s)
    | None => sessions (vars s)
    end ∧
  (reachable s →
   ∀ t, t ∈ timeouts (browser s1) → callback t ≠ CbOnTimerEnd).
Proof.
  intros s1 s2 s3.
  assert (Hcancel : reachable s →
            ∀ t, t ∈ timeouts (browser s1) → callback t ≠ CbOnTimerEnd).
  { intros Hreach t. apply endSession_cancels_expiry.
    now apply reachable_Inv. }
  pose proof (endSession_closes f1 env1 s) as Hclosed. fold s1 in Hclosed.
  destruct (endSession_nothing_to_log f2 env2 s1 Hclosed)
    as (Hs2 & Hh2 & Hl2 & _).
  destruct (onTimerEnd_nothing_to_log env3 s1 Hclosed)
    as (Hs3 & Hh3 & Hl3 & _).
  repeat split; try assumption.
  fold s2 in Hs2. rewrite Hs2. subst s1.
  destruct (open_session s) as [[l r]|] eqn:Hopen.
  - unfold open_session in Hopen.
    destruct (currentSession (vars s)) as [l'|] eqn:Hc; [|discriminate].
    destruct (heap s !! l') as [r'|] eqn:Hl; [|discriminate].
    destruct (endTime r') eqn:He; [discriminate|].
    injection Hopen as -> ->.
    now destruct (endSession_finalizes f1 env1 s l r Hc Hl He)
      as (_ & _ & Hss).
  - now destruct (endSession_nothing_to_log f1 env1 s Hopen) as (Hs & _).
Qed.

Lemma demo_resumed_reachable : reachable demo_resumed.
Proof.
  apply (reach_step (world 16000) StartClick demo_paused); [|exact I].
  apply (reach_step (world 11000) StartClick demo_running); [|exact I].
  apply (reach_step (world 1000) StartClick demo_typed); [|exact I].
  apply (reach_step (world 0) (TypeGoal goal_x) demo_loaded);
    [|reflexivity].
  apply reach_init.
Qed.

(** Ending the walk by hand at 21 s and ending it again, or the expiry
    coming at 1516 s: one record in the log, and no expiry pending. *)
Lemma endSession_at_most_once_witness :
  sessions (vars (final (endSession false (world 22000) demo_ended)))
  = [0%nat] ∧
  sessions (vars (final (onTimerEnd (world 1516000) demo_ended)))
  = [0%nat] ∧
  ∀ t, t ∈ timeouts (browser demo_ended) → callback t ≠ CbOnTimerEnd.
Proof.
  destruct (endSession_at_most_once false false (world 21000) (world 22000)
              (world 1516000) demo_resumed)
    as ((H2 & _) & (H3 & _) & _ & Hc).
  split; [exact H2|]. split; [exact H3|].
  exact (Hc demo_resumed_reachable).
Defined.

(* --------------------------------------------------------------------- *)
(* The reset button                                                      *)
(* --------------------------------------------------------------------- *)

Section Reset.

Lemma resetTimer_result env s :
  let s' := final (resetTimer env s) in
  returns (resetTimer env s) = true ∧
  isRunning (vars s') = false ∧
  duration (vars s') = durationSelect_value (dom s) * 60 ∧
  timeLeft (vars s') = durationSelect_value (dom s) * 60 ∧
  currentSession (vars s') = None ∧
  goalInput_value (dom s') = [] ∧
  sessions (vars s') = sessions (vars s) ∧ heap s' = heap s.
Proof. exec. done. Qed.

(** When storing returns, so does [endSession], and it has reset the
    timer. *)
Lemma endSession_returns isFinished env s :
  storing_returns env = true →
  is_Some (open_session s) ∨ currentSession (vars s) = None →
  let s' := final (endSession isFinished env s) in
  returns (endSession isFinished env s) = true ∧
  isRunning (vars s') = false ∧
  currentSession (vars s') = None ∧
  durationSelect_value (dom s') = durationSelect_value (dom s) ∧
  timeLeft (vars s') = durationSelect_value (dom s) * 60 ∧
  duration (vars s') = durationSelect_value (dom s) * 60 ∧
  goalInput_value (dom s') = [].
Proof.
  unfold storing_returns, open_session. intros Hst Hs. exec.
  crunch; try done.
  all: try match goal with
           | H : localStorage_available _ = true,
             H' : localStorage_setItem_throws _ = true |- _ =>
               rewrite H, H' in Hst; discriminate Hst
           end.
  all: destruct Hs as [[? Hs]|Hs]; simplify_eq/=.
Qed.

(** What the table and local storage hold after the session is logged. *)
Lemma endSession_shows_log isFinished env s l r :
  currentSession (vars s) = Some l →
  heap s !! l = Some r →
  endTime r = None →
  let s' := final (endSession isFinished env s) in
  sessionLog (dom s') = session_values s' ∧
  (localStorage_available env = true →
   localStorage_setItem_throws env = false →
   localStorage (browser s') = Some (session_values s')) ∧
  (storing_returns env = false →
   raised (endSession isFinished env s) = Some QuotaExceededError ∧
   localStorage (browser s') = localStorage (browser s) ∧
   currentSession (vars s') = Some l).
Proof.
  intros Hc Hl He. unfold storing_returns, session_values.
  exec. rewrite Hc. cbn. rewrite Hl, He. cbn.
  destruct (localStorage_available env),
    (localStorage_setItem_throws env), isFinished; cbn; done.
Qed.

(** When storing raises, [endSession] stops there: the timer is stopped
    but not reset, and the session stays current. *)
Lemma endSession_storing_raises isFinished env s l r :
  currentSession (vars s) = Some l →
  heap s !! l = Some r →
  endTime r = None →
  storing_returns env = false →
  let s' := final (endSession isFinished env s) in
  raised (endSession isFinished env s) = Some QuotaExceededError ∧
  localStorage (browser s') = localStorage (browser s) ∧
  isRunning (vars s') = false ∧
  timeLeft (vars s') = timeLeft (vars s) ∧
  currentSession (vars s') = Some l ∧
  goalInput_value (dom s') = goalInput_value (dom s) ∧
  startBtn_textContent (dom s') = startBtn_textContent (dom s) ∧
  goalInput_disabled (dom s') = goalInput_disabled (dom s).
Proof.
  intros Hc Hl He. unfold storing_returns.
  exec. rewrite Hc. cbn. rewrite Hl, He. cbn.
  destruct (localStorage_available env),
    (localStorage_setItem_throws env), isFinished; cbn; done.
Qed.

(** Without local storage nothing is stored. *)
Lemma endSession_storage_unavailable isFinished env s l r :
  currentSession (vars s) = Some l →
  heap s !! l = Some r →
  endTime r = None →
  localStorage_available env = false →
  localStorage (browser (final (endSession isFinished env s)))
  = localStorage (browser s).
Proof.
  intros Hc Hl He Hav.
  exec. rewrite Hc. cbn. rewrite Hl, He. cbn. rewrite Hav. cbn.
  now destruct isFinished.
Qed.

(** [resetTimer] touches neither the log, nor the table, nor what is
    stored. *)
Lemma resetTimer_keeps env s :
  let s' := final (resetTimer env s) in
  sessionLog (dom s') = sessionLog (dom s) ∧
  localStorage (browser s') = localStorage (browser s) ∧
  session_values s' = session_values s.
Proof. unfold session_values. exec. done. Qed.

End Reset.

(** C9. The reset button, pressed while a session that has not ended is
    current, first runs [endSession], which sets the record's [endTime],
    computes its [duration], puts it at the front of the log, shows the
    log in the table and, when local storage is available, stores it.
    Provided storing does not raise, it then runs [resetTimer] on the
    state so obtained: the record stays logged, shown and stored, the
    timer is back at the selected duration, and the current session and
    the goal are cleared.  When storing raises, the record is finalized,
    logged and shown all the same, but the listener stops there: nothing
    is stored, the timer is stopped and not reset, and the record stays
    the current session, with its goal. *)
Theorem reset_finalizes_before_resetting env s l r :
  currentSession (vars s) = Some l →
  heap s !! l = Some r →
  endTime r = None →
  let s1 := final (endSession false env s) in
  let s' := final (resetBtn_click env s) in
  (heap s1 !! l = Some (finalized (new_Date env) r) ∧
   sessions (vars s1) = l :: sessions (vars s)) ∧
  (heap s' !! l = Some (finalized (new_Date env) r) ∧
   sessions (vars s') = l :: sessions (vars s)) ∧
  (storing_returns env = true →
     resetBtn_click env s = resetTimer env s1 ∧
     returns (resetBtn_click env s) = true ∧
     isRunning (vars s') = false ∧
     timeLeft (vars s') = durationSelect_value (dom s) * 60 ∧
     duration (vars s') = durationSelect_value (dom s) * 60 ∧
     currentSession (vars s') = None ∧
     goalInput_value (dom s') = []) ∧
  (sessionLog (dom s') = session_values s' ∧
   session_values s'
   = finalized (new_Date env) r
       :: omap (λ k, heap s' !! k) (sessions (vars s))) ∧
  (localStorage_available env = true →
   localStorage_setItem_throws env = false →
   localStorage (browser s') = Some (session_values s')) ∧
  (localStorage_available env = false →
   localStorage (browser s') = localStorage (browser s)) ∧
  (storing_returns env = false →
     raised (resetBtn_click env s) = Some QuotaExceededError ∧
     s' = s1 ∧
     localStorage (browser s') = localStorage (browser s) ∧
     isRunning (vars s') = false ∧
     timeLeft (vars s') = timeLeft (vars s) ∧
     currentSession (vars s') = Some l ∧
     goalInput_value (dom s') = goalInput_value (dom s) ∧
     startBtn_textContent (dom s') = startBtn_textContent (dom s) ∧
     goalInput_disabled (dom s') = goalInput_disabled (dom s)).
Proof.
  intros Hc Hl He s1 s'.
  destruct (endSession_finalizes false env s l r Hc Hl He) as (_ & Hh & Hss).
  fold s1 in Hh, Hss.
  assert (Hopen : open_session s = Some (l, r))
    by (unfold open_session; now rewrite Hc, Hl, He).
  assert (Hcall : resetBtn_click env s
                  = match endSession false env s with
                    | Done _ t => resetTimer env t
                    | Throw e t => Throw e t
                    end).
  { unfold resetBtn_click. unfold_monad. now rewrite Hc. }
  assert (Hlog : heap s' !! l = Some (finalized (new_Date env) r) ∧
                 sessions (vars s') = l :: sessions (vars s)).
  { subst s'. rewrite Hcall.
    destruct (endSession false env s) as [[] t|e t] eqn:Hend; cbn in *.
    + subst s1. cbn in *.
      destruct (resetTimer_result env t) as (_ & _ & _ & _ & _ & _ & Hs & Hp).
      now rewrite Hs, Hp.
    + easy. }
  destruct (endSession_shows_log false env s l r Hc Hl He) as (T1 & T2 & _).
  fold s1 in T1, T2.
  assert (Hkeep : sessionLog (dom s') = sessionLog (dom s1) ∧
                  localStorage (browser s') = localStorage (browser s1) ∧
                  session_values s' = session_values s1).
  { subst s' s1. rewrite Hcall.
    destruct (endSession false env s) as [[] t|e t]; cbn; [|done].
    apply resetTimer_keeps. }
  destruct Hkeep as (K1 & K2 & K3).
  split; [easy|]. split; [exact Hlog|]. split; [|split; [|split; [|split]]].
  - intros Hst.
    destruct (endSession_returns false env s Hst) as (Hret & _ & _ & Hsel & _);
      [left; rewrite Hopen; eauto|].
    fold s1 in Hsel.
    assert (Hs' : resetBtn_click env s = resetTimer env s1).
    { rewrite Hcall. subst s1.
      destruct (endSession false env s); [reflexivity|discriminate]. }
    subst s'. rewrite Hs'.
    destruct (resetTimer_result env s1) as (R1 & R2 & R3 & R4 & R5 & R6 & _).
    rewrite <- Hsel. easy.
  - split; [now rewrite K1, K3|].
    destruct Hlog as [Hh' Hss']. unfold session_values. rewrite Hss'. cbn.
    now rewrite Hh'.
  - intros Hav Hok. rewrite K2, K3. now apply T2.
  - intros Hav. rewrite K2.
    now apply (endSession_storage_unavailable false env s l r).
  - intros Hst.
    destruct (endSession_storing_raises false env s l r Hc Hl He Hst)
      as (F1 & F2 & F3 & F4 & F5 & F6 & F7 & F8).
    fold s1 in F2, F3, F4, F5, F6, F7, F8.
    assert (Hs' : resetBtn_click env s = endSession false env s).
    { rewrite Hcall.
      destruct (endSession false env s); [discriminate F1|reflexivity]. }
    assert (E : s' = s1) by (subst s' s1; now rewrite Hs').
    rewrite Hs', E. easy.
Qed.

(** The walk, reset at 21 s instead of ended. *)
Lemma reset_finalizes_before_resetting_witness :
  let s' := final (resetBtn_click (world 21000) demo_resumed) in
  sessions (vars s') = [0%nat] ∧
  heap s' !! 0%nat
  = Some (mkSession goal_x 1000 (Some 21000) 15
            [mkPause 11000 (Some 16000)]) ∧
  timeLeft (vars s') = 1500 ∧ currentSession (vars s') = None ∧
  goalInput_value (dom s') = [] ∧
  sessionLog (dom s')
  = [mkSession goal_x 1000 (Some 21000) 15 [mkPause 11000 (Some 16000)]] ∧
  localStorage (browser s')
  = Some [mkSession goal_x 1000 (Some 21000) 15
            [mkPause 11000 (Some 16000)]].
Proof.
  intros s'.
  destruct (reset_finalizes_before_resetting (world 21000) demo_resumed 0%nat
              (mkSession goal_x 1000 None 0 [mkPause 11000 (Some 16000)])
              eq_refl eq_refl eq_refl)
    as (_ & (Hh & Hs) & Hrest & (Ht & Hv) & Hsto & _).
  destruct (Hrest eq_refl) as (_ & _ & _ & Htl & _ & Hc & Hg).
  specialize (Hsto eq_refl eq_refl).
  fold s' in Hh, Hs, Htl, Hc, Hg, Ht, Hv, Hsto.
  rewrite Hv in Ht, Hsto.
  repeat split; assumption.
Defined.

(** C9 as stated fails when storing the log raises: the walk, with its
    frame at 5 s, is reset at 21 s with local storage full.  The record is
    finalized and logged, but the timer is not reset to the 1500 s
    selected (1496 s stay), and neither the current session nor the goal
    is cleared. *)
Lemma reset_with_failing_storage_does_not_reset :
  reachable demo_ticked ∧
  open_session demo_ticked = Some (0%nat, mkSession goal_x 1000 None 0 []) ∧
  durationSelect_value (dom demo_ticked) = 25 ∧
  raised (resetBtn_click (world_with_full_storage 21000) demo_ticked)
  = Some QuotaExceededError ∧
  heap demo_reset_unsaved !! 0%nat
  = Some (mkSession goal_x 1000 (Some 21000) 20 []) ∧
  sessions (vars demo_reset_unsaved) = [0%nat] ∧
  timeLeft (vars demo_reset_unsaved) = 1496 ∧
  currentSession (vars demo_reset_unsaved) = Some 0%nat ∧
  goalInput_value (dom demo_reset_unsaved) = goal_x ∧
  startBtn_textContent (dom demo_reset_unsaved) = LPause ∧
  goalInput_disabled (dom demo_reset_unsaved) = true ∧
  timerDisplay (dom demo_reset_unsaved) = (24, 56) ∧
  localStorage (browser demo_reset_unsaved) = None.
Proof.
  split.
  { apply (reach_step (world 5000) (FrameDue 1) demo_running).
    - apply (reach_step (world 1000) StartClick demo_typed); [|exact I].
      apply (reach_step (world 0) (TypeGoal goal_x) demo_loaded);
        [|reflexivity].
      apply reach_init.
    - vm_compute. apply list_elem_of_here. }
  vm_compute. repeat split; reflexivity.
Qed.

(* --------------------------------------------------------------------- *)
(* Pause and resume                                                      *)
(* --------------------------------------------------------------------- *)

Section PauseResume.

Lemma lookup_last_snoc (ps : list Pause) p :
  (ps ++ [p]) !! (length (ps ++ [p]) - 1)%nat = Some p.
Proof.
  rewrite length_app. cbn.
  replace (length ps + 1 - 1)%nat with (length ps + 0)%nat by lia.
  now rewrite lookup_app_r, Nat.add_0_r, Nat.sub_diag by lia.
Qed.

Lemma insert_last_snoc (ps : list Pause) p q :
  <[(length (ps ++ [p]) - 1)%nat := q]> (ps ++ [p]) = ps ++ [q].
Proof.
  rewrite length_app. cbn.
  replace (length ps + 1 - 1)%nat with (length ps + 0)%nat by lia.
  now rewrite insert_app_r.
Qed.

Section OnTheCurrentSession.

Variables (env : Env) (s : State) (l : ref) (r : Session).
Hypothesis Hcurrent : currentSession (vars s) = Some l.
Hypothesis Hobject : heap s !! l = Some r.
Hypothesis Htone : Tone_defined env = true.

(** Pausing a running timer. *)
Lemma startTimer_pauses :
  isRunning (vars s) = true →
  let s' := final (startTimer env s) in
  returns (startTimer env s) = true ∧
  isRunning (vars s') = false ∧
  timeLeft (vars s') = timeLeft (vars s) ∧
  currentSession (vars s') = Some l ∧
  goalInput_value (dom s') = goalInput_value (dom s) ∧
  heap s' = <[l := with_pauses (pauses r ++ [mkPause (new_Date env) None]) r]>
              (heap s).
Proof.
  intros Hrun. exec. rewrite Htone. cbn.
  destruct (Notification_in_window env), (Notification_permission env);
    cbn; rewrite Hrun; cbn; rewrite Hcurrent; cbn; rewrite Hobject; cbn;
    done.
Qed.

(** Resuming a paused timer whose last pause is open. *)
Lemma startTimer_resumes ps p :
  isRunning (vars s) = false →
  pauses r = ps ++ [mkPause p None] →
  truthy (trim (goalInput_value (dom s))) = true →
  let s' := final (startTimer env s) in
  returns (startTimer env s) = true ∧
  isRunning (vars s') = true ∧
  timeLeft (vars s') = timeLeft (vars s) ∧
  targetTime (vars s') = Some (Date_now env + timeLeft (vars s) * 1000) ∧
  currentSession (vars s') = Some l ∧
  heap s' = <[l := with_pauses (ps ++ [mkPause p (Some (new_Date env))]) r]>
              (heap s).
Proof.
  intros Hrun Hp Hgoal. exec. rewrite Htone. cbn.
  destruct (Notification_in_window env), (Notification_permission env);
    cbn; rewrite Hrun; cbn; rewrite Hgoal; cbn; rewrite Hcurrent; cbn;
    rewrite Hobject; cbn; rewrite Hp, lookup_last_snoc; cbn;
    rewrite insert_last_snoc; done.
Qed.

End OnTheCurrentSession.

End PauseResume.

(** C6. Pausing a running timer and resuming it leaves [timeLeft] as it
    was, and the session record has exactly one pause entry more, whose
    [pauseTime] is the instant of the pause and whose [resumeTime] is the
    instant of the resume: the pause appended the entry with [resumeTime]
    null, the resume filled it in and added none.  No other session
    object is touched. *)
Theorem pause_resume_round_trip env1 env2 s :
  reachable s →
  isRunning (vars s) = true →
  Tone_defined env1 = true →
  Tone_defined env2 = true →
  let paused := final (startTimer env1 s) in
  let resumed := final (startTimer env2 paused) in
  ∃ l r,
    currentSession (vars s) = Some l ∧ heap s !! l = Some r ∧
    returns (startTimer env1 s) = true ∧
    returns (startTimer env2 paused) = true ∧
    isRunning (vars paused) = false ∧ isRunning (vars resumed) = true ∧
    timeLeft (vars paused) = timeLeft (vars s) ∧
    timeLeft (vars resumed) = timeLeft (vars s) ∧
    heap paused !! l
    = Some (with_pauses (pauses r ++ [mkPause (new_Date env1) None]) r) ∧
    heap resumed !! l
    = Some (with_pauses
              (pauses r ++ [mkPause (new_Date env1) (Some (new_Date env2))]) r) ∧
    currentSession (vars resumed) = Some l ∧
    (∀ l', l' ≠ l → heap resumed !! l' = heap s !! l').
Proof.
  intros Hreach Hrun Ht1 Ht2 paused resumed.
  destruct (reachable_Inv s Hreach) as [Hr _ Hs _ _ _ _].
  destruct (Hr Hrun) as [[l Hc] _].
  destruct (Hs l Hc) as ([r Hl] & _ & _ & Hgoal).
  exists l, r.
  pose proof (lookup_lt_Some _ _ _ Hl) as Hlt.
  destruct (startTimer_pauses env1 s l r Hc Hl Ht1 Hrun)
    as (P1 & P2 & P3 & P4 & P5 & P6).
  fold paused in P2, P3, P4, P5, P6.
  assert (Hl1 : heap paused !! l
                = Some (with_pauses (pauses r ++ [mkPause (new_Date env1) None]) r))
    by (rewrite P6; now apply list_lookup_insert_eq).
  rewrite <- P5 in Hgoal.
  destruct (startTimer_resumes env2 paused l _ P4 Hl1 Ht2
              (pauses r) (new_Date env1) P2 eq_refl Hgoal)
    as (R1 & R2 & R3 & _ & R5 & R6).
  fold resumed in R2, R3, R5, R6.
  repeat split; try assumption; try congruence.
  - rewrite R6, P6. apply list_lookup_insert_eq.
    now rewrite length_insert.
  - intros l' Hne. rewrite R6, P6.
    now rewrite !list_lookup_insert_ne by congruence.
Qed.

Lemma demo_running_reachable : reachable demo_running.
Proof.
  apply (reach_step (world 1000) StartClick demo_typed); [|exact I].
  apply (reach_step (world 0) (TypeGoal goal_x) demo_loaded);
    [|reflexivity].
  apply reach_init.
Qed.

Lemma pause_resume_round_trip_witness :
  timeLeft (vars demo_resumed) = timeLeft (vars demo_running) ∧
  heap demo_resumed !! 0%nat
  = Some (mkSession goal_x 1000 None 0 [mkPause 11000 (Some 16000)]).
Proof.
  destruct (pause_resume_round_trip (world 11000) (world 16000) demo_running
              demo_running_reachable eq_refl eq_refl eq_refl)
    as (l & r & Hc & Hl & _ & _ & _ & _ & _ & Ht & _ & Hh & _).
  injection Hc as <-. injection Hl as <-.
  split; [exact Ht | exact Hh].
Defined.

(* --------------------------------------------------------------------- *)
(* Remaining time and the deadline                                       *)
(* --------------------------------------------------------------------- *)

Section Deadline.

(** Starting or resuming sets the deadline from the time left. *)
Lemma startTimer_sets_deadline env s :
  isRunning (vars s) = false →
  Tone_defined env = true →
  truthy (trim (goalInput_value (dom s))) = true →
  let s' := final (startTimer env s) in
  isRunning (vars s') = true ∧
  targetTime (vars s') = Some (Date_now env + timeLeft (vars s) * 1000) ∧
  timeLeft (vars s') = timeLeft (vars s) ∧
  (∃ t, t ∈ timeouts (browser s') ∧ callback t = CbOnTimerEnd ∧
        delay t = timeLeft (vars s) * 1000 ∧
        timeoutId (vars s') = Some (handle t)).
Proof.
  intros Hrun Htone Hgoal. exec. rewrite Htone. cbn.
  destruct (Notification_in_window env), (Notification_permission env);
    cbn; rewrite Hrun; cbn; rewrite Hgoal; cbn.
  all: crunch; repeat split; try done.
  all: eexists; (split; [apply elem_of_app; right; apply list_elem_of_singleton;
                        reflexivity | done]).
Qed.

(** One frame of the display loop on a running timer. *)
Lemma updateDisplayLoop_recomputes env s deadline :
  isRunning (vars s) = true →
  targetTime (vars s) = Some deadline →
  0 ≤ timeLeft (vars s) →
  let s' := final (updateDisplayLoop env s) in
  returns (updateDisplayLoop env s) = true ∧
  isRunning (vars s') = true ∧
  targetTime (vars s') = Some deadline ∧
  timeLeft (vars s')
  = Z.max 0 (Math_round_div1000 (deadline - Date_now env)).
Proof.
  intros Hrun Ht Hleft. exec. rewrite Hrun. cbn. rewrite Ht. cbn.
  crunch; use_inv; repeat split; try done; lia.
Qed.

End Deadline.

(** C3. Starting or resuming sets [targetTime] to the instant of the
    call plus [timeLeft] (in milliseconds) and schedules [onTimerEnd]
    after that delay; whenever the timer is running [targetTime] is set,
    and a frame of the display loop leaves [timeLeft] equal to the larger
    of 0 and the rounded number of seconds from now to [targetTime],
    whatever [timeLeft] was before. *)
Theorem remaining_time_follows_deadline env s :
  (isRunning (vars s) = false →
   Tone_defined env = true →
   truthy (trim (goalInput_value (dom s))) = true →
   let s' := final (startTimer env s) in
   isRunning (vars s') = true ∧
   targetTime (vars s') = Some (Date_now env + timeLeft (vars s) * 1000) ∧
   timeLeft (vars s') = timeLeft (vars s)) ∧
  (reachable s →
   isRunning (vars s) = true →
   ∃ deadline,
     targetTime (vars s) = Some deadline ∧
     let s' := final (updateDisplayLoop env s) in
     isRunning (vars s') = true ∧
     targetTime (vars s') = Some deadline ∧
     timeLeft (vars s')
     = Z.max 0 (Math_round_div1000 (deadline - Date_now env))) ∧
  (∀ s2,
     reachable s → reachable s2 →
     isRunning (vars s) = true → isRunning (vars s2) = true →
     targetTime (vars s2) = targetTime (vars s) →
     timeLeft (vars (final (updateDisplayLoop env s2)))
     = timeLeft (vars (final (updateDisplayLoop env s)))).
Proof.
  split; [|split].
  - intros Hrun Htone Hgoal s'.
    destruct (startTimer_sets_deadline env s Hrun Htone Hgoal)
      as (H1 & H2 & H3 & _).
    easy.
  - intros Hreach Hrun.
    destruct (reachable_Inv s Hreach) as [Hr _ _ Hleft _ _ _].
    destruct (Hr Hrun) as [_ [deadline Ht]].
    exists deadline. split; [exact Ht|].
    now destruct (updateDisplayLoop_recomputes env s deadline Hrun Ht Hleft)
      as (_ & H1 & H2 & H3).
  - intros s2 Hreach Hreach2 Hrun Hrun2 Heq.
    destruct (reachable_Inv s Hreach) as [Hr _ _ Hleft _ _ _].
    destruct (reachable_Inv s2 Hreach2) as [_ _ _ Hleft2 _ _ _].
    destruct (Hr Hrun) as [_ [deadline Ht]].
    rewrite Ht in Heq.
    destruct (updateDisplayLoop_recomputes env s deadline Hrun Ht Hleft)
      as (_ & _ & _ & H3).
    destruct (updateDisplayLoop_recomputes env s2 deadline Hrun2 Heq Hleft2)
      as (_ & _ & _ & H4).
    congruence.
Qed.

(** The walk: started at 1 s with 1500 s left, the deadline is at 1501 s;
    a frame at 3.4 s shows 1498 s (1497.6 rounded), a frame long after the
    deadline shows 0. *)
Lemma remaining_time_follows_deadline_witness :
  targetTime (vars demo_running) = Some 1501000 ∧
  timeLeft (vars (final (updateDisplayLoop (world 3400) demo_running))) = 1498 ∧
  timeLeft (vars (final (updateDisplayLoop (world 1600000) demo_running))) = 0.
Proof.
  split; [|split].
  - exact (proj1 (proj2 (proj1 (remaining_time_follows_deadline
                                  (world 1000) demo_typed)
                           eq_refl eq_refl eq_refl))).
  - destruct (proj1 (proj2 (remaining_time_follows_deadline
                              (world 3400) demo_running))
                demo_running_reachable eq_refl)
      as (deadline & Ht & _ & _ & Hl).
    injection Ht as <-. exact Hl.
  - destruct (proj1 (proj2 (remaining_time_follows_deadline
                              (world 1600000) demo_running))
                demo_running_reachable eq_refl)
      as (deadline & Ht & _ & _ & Hl).
    injection Ht as <-. exact Hl.
Defined.

(* --------------------------------------------------------------------- *)
(* Expiry: notify, then finalize                                         *)
(* --------------------------------------------------------------------- *)

Section Expiry.



End Expiry.




(* --------------------------------------------------------------------- *)
(* Changing the duration                                                 *)
(* --------------------------------------------------------------------- *)

(** C5 as the code has it.  [changeDuration] does nothing while the timer
    is running.  Whenever the timer is not running, a paused session
    included, it sets [duration] and [timeLeft] to the selected number of
    minutes times 60.  What keeps the duration fixed while a session
    record is active is the select itself: in every reachable state with
    a current session it is disabled, so that no change event can occur
    there. *)
Theorem changeDuration_guard env s :
  (isRunning (vars s) = true → changeDuration env s = Done tt s) ∧
  (isRunning (vars s) = false →
   let s' := final (changeDuration env s) in
   duration (vars s') = durationSelect_value (dom s) * 60 ∧
   timeLeft (vars s') = durationSelect_value (dom s) * 60 ∧
   currentSession (vars s') = currentSession (vars s) ∧
   heap s' = heap s) ∧
  (reachable s →
   is_Some (currentSession (vars s)) →
   durationSelect_disabled (dom s) = true ∧
   ∀ minutes, ¬ enabled (SelectDuration minutes) s).
Proof.
  split; [|split].
  - intros Hrun. exec. now rewrite Hrun.
  - intros Hrun. exec. now rewrite Hrun.
  - intros Hreach [l Hc].
    destruct (reachable_Inv s Hreach) as [_ _ Hs _ _ _ _].
    destruct (Hs l Hc) as (_ & Hdis & _).
    split; [exact Hdis|].
    intros minutes [Hen _]. congruence.
Qed.

Lemma demo_ticked_paused_reachable : reachable demo_ticked_paused.
Proof.
  apply (reach_step (world 11000) StartClick demo_ticked); [|exact I].
  apply (reach_step (world 5000) (FrameDue 1) demo_running);
    [exact demo_running_reachable|].
  apply list_elem_of_singleton. reflexivity.
Qed.

Lemma changeDuration_guard_witness :
  changeDuration (world 5000) demo_running = Done tt demo_running ∧
  timeLeft (vars (final (changeDuration (world 500) demo_typed))) = 1500 ∧
  durationSelect_disabled (dom demo_ticked_paused) = true.
Proof.
  pose proof (changeDuration_guard (world 5000) demo_running) as (H1 & _ & _).
  pose proof (changeDuration_guard (world 500) demo_typed) as (_ & H2 & _).
  pose proof (changeDuration_guard (world 0) demo_ticked_paused) as (_ & _ & H3).
  split; [exact (H1 eq_refl)|]. split.
  - exact (proj1 (proj2 (H2 eq_refl))).
  - exact (proj1 (H3 demo_ticked_paused_reachable (mk_is_Some _ _ eq_refl))).
Defined.

(** C5 as stated fails for a paused session: called on it,
    [changeDuration] replaces the 1496 s that were left by the 1500 s of
    the selected duration. *)
Lemma changeDuration_while_paused_overwrites :
  let s := demo_ticked_paused in
  let s' := final (changeDuration (world 12000) s) in
  isRunning (vars s) = false ∧
  currentSession (vars s) = Some 0%nat ∧
  timeLeft (vars s) = 1496 ∧
  timeLeft (vars s') = 1500 ∧
  changeDuration (world 12000) s ≠ Done tt s.
Proof.
  cbn zeta. repeat split; try reflexivity.
  intros H. apply (f_equal (λ res, timeLeft (vars (final res)))) in H.
  vm_compute in H. discriminate H.
Qed.

(* --------------------------------------------------------------------- *)
(* Ending or pausing without a session                                   *)
(* --------------------------------------------------------------------- *)

(** C8 as the code has it.  With no current session, [endSession] returns
    normally, logs and stores nothing and touches no session object; in
    every reachable state it also leaves every variable of the script as
    it is, and of the page it changes the goal input only, which it
    clears (it runs [resetTimer] all the same).  There is no pause
    request of its own: the start button pauses only a running timer,
    and a reachable state without a session is not running; pressing it
    there alters no session object, it validates the goal and starts. *)
Theorem endSession_without_session isFinished env s :
  currentSession (vars s) = None →
  let res := endSession isFinished env s in
  let s' := final res in
  (returns res = true ∧
   sessions (vars s') = sessions (vars s) ∧ heap s' = heap s ∧
   localStorage (browser s') = localStorage (browser s) ∧
   sessionLog (dom s') = sessionLog (dom s) ∧
   effects (browser s') = effects (browser s)) ∧
  (reachable s →
   isRunning (vars s) = false ∧
   vars s' = vars s ∧
   dom s' = dom (set_goalInput_value [] s)) ∧
  (∀ l r, heap s !! l = Some r →
     heap (final (startTimer env s)) !! l = Some r).
Proof.
  intros Hc res s'. split; [|split].
  - subst res s'. exec. rewrite Hc. cbn. destruct isFinished; done.
  - intros Hreach.
    destruct (reachable_Inv s Hreach) as [Hr Hi _ _ _ Hd _].
    destruct (Hi Hc) as (I1 & I2 & I3 & I4 & I5).
    assert (Hrun : isRunning (vars s) = false).
    { destruct (isRunning (vars s)); [|reflexivity].
      destruct (Hr eq_refl) as [[l Hl] _]. congruence. }
    split; [exact Hrun|].
    subst res s'. exec. rewrite Hc. cbn.
    destruct s as [[] h [] b]; cbn in *; subst.
    destruct isFinished; cbn; split; reflexivity.
  - intros l r Hl. exec.
    crunch; simplify_eq/=; try done.
    all: now apply lookup_app_l_Some.
Qed.

Lemma demo_typed_reachable : reachable demo_typed.
Proof.
  apply (reach_step (world 0) (TypeGoal goal_x) demo_loaded);
    [|reflexivity].
  apply reach_init.
Qed.

Lemma endSession_without_session_witness :
  let s' := final (endSession false (world 500) demo_typed) in
  sessions (vars s') = [] ∧ vars s' = vars demo_typed ∧
  dom s' = dom (set_goalInput_value [] demo_typed).
Proof.
  intros s'.
  destruct (endSession_without_session false (world 500) demo_typed eq_refl)
    as ((_ & Hs & _) & Hr & _).
  destruct (Hr demo_typed_reachable) as (_ & Hv & Hd).
  repeat split; assumption.
Defined.

(** C8 as stated fails: on the freshly loaded page with a goal typed in
    and no session, [endSession] is not a no-op, it clears the goal, after
    which a start is rejected that would have been accepted; and the
    start button, the only way to ask for a pause, starts a session. *)
Lemma endSession_without_session_clears_goal :
  let s := demo_typed in
  let s' := final (endSession false (world 500) s) in
  currentSession (vars s) = None ∧ isRunning (vars s) = false ∧
  goalInput_value (dom s) = goal_x ∧ goalInput_value (dom s') = [] ∧
  endSession false (world 500) s ≠ Done tt s ∧
  isRunning (vars (final (startTimer (world 600) s))) = true ∧
  isRunning (vars (final (startTimer (world 600) s'))) = false.
Proof.
  cbn zeta. repeat split; try reflexivity.
  intros H. apply (f_equal (λ res, goalInput_value (dom (final res)))) in H.
  vm_compute in H. discriminate H.
Qed.

(* ===================================================================== *)
(* Further properties of the script                                      *)
(* ===================================================================== *)
(* Properties read off the code beyond the ones above: what the
   listeners keep true from the loading of the page on, how they compose,
   and what the utility functions print. *)

(** Splitting a state into its fields, and computing the assignments
    made to it. *)
Ltac explode s :=
  let v := fresh "v" in let d := fresh "d" in let b := fresh "b" in
  destruct s as [v ? d b]; destruct v, d, b.

Ltac norm_state :=
  cbv beta iota zeta delta
    [set_targetTime set_timeLeft set_isRunning set_animationFrameId
     set_timeoutId set_duration set_currentSession set_sessions set_synth
     set_timerDisplay set_startBtn_textContent set_durationSelect_value
     set_durationSelect_disabled set_goalInput_value set_goalInput_disabled
     set_goalInput_error set_completionModal_visible set_sessionLog
     set_timeouts set_frames set_next_handle set_localStorage set_effects
     set_heap upd_vars upd_dom upd_browser
     vars heap dom browser
     targetTime timeLeft isRunning animationFrameId timeoutId duration
     currentSession sessions synth
     timerDisplay startBtn_textContent durationSelect_value
     durationSelect_disabled goalInput_value goalInput_disabled
     goalInput_error completionModal_visible sessionLog
     timeouts frames next_handle localStorage effects
     final returns raised].

(** Cancelling the same handle twice is cancelling it once. *)
Lemma cancel_idem {A} (key : A → nat) id (l : list A) :
  cancel key id (cancel key id l) = cancel key id l.
Proof.
  unfold cancel. destruct id as [h|]; [|reflexivity].
  induction l as [|x l IH]; [reflexivity|].
  rewrite (filter_cons _ x l). destruct (decide (key x ≠ h)) as [Hx|Hx].
  - rewrite filter_cons_True by exact Hx. now rewrite IH.
  - exact IH.
Qed.

Ltac absurd_decide :=
  match goal with
  | H : bool_decide (is_Some (Some _)) = false |- _ =>
      apply bool_decide_eq_false in H; exfalso; apply H; eauto
  | H : bool_decide (is_Some None) = true |- _ =>
      apply bool_decide_eq_true in H; destruct H as [? H]; discriminate H
  end.

Ltac use_facts :=
  repeat match goal with
         | H : negb _ = true |- _ => apply negb_true_iff in H
         | H : negb _ = false |- _ => apply negb_false_iff in H
         | H : _ ∧ _ |- _ => destruct H
         | H : (?a =? ?b) = true |- _ => apply Z.eqb_eq in H
         | H : (?a <? ?b) = true |- _ => apply Z.ltb_lt in H
         | H : (?a <? ?b) = false |- _ => apply Z.ltb_ge in H
         | H : Some _ = Some _ |- _ => injection H as H
         | H : is_Some ?x, H' : ?x = None |- _ =>
             rewrite H' in H; destruct H as [? H]; discriminate H
         | H : is_Some None |- _ => destruct H as [? H]; discriminate H
         | H : ?x = ?x → _ |- _ => specialize (H eq_refl)
         | H : is_Some (Some ?r) → _ |- _ =>
             specialize (H (mk_is_Some _ _ eq_refl))
         | H : ∀ l, Some ?r = Some l → _ |- _ => specialize (H _ eq_refl)
         | H : ?a = Some _, H' : ?a = Some _ |- _ =>
             rewrite H in H'; injection H' as H'
         | H : ?a = Some _, H' : ?a = None |- _ =>
             rewrite H in H'; discriminate H'
         | H : ?a = true, H' : ?a = false |- _ =>
             rewrite H in H'; discriminate H'
         | H : ?P → _, H' : ?P |- _ => specialize (H H')
         | H : ∀ l, ?c = Some l → _, H' : ?c = Some _ |- _ =>
             specialize (H _ H')
         end.

(* --------------------------------------------------------------------- *)
(* Resetting and ending                                                  *)
(* --------------------------------------------------------------------- *)

(** X1. Resetting twice is resetting once: a second [resetTimer],
    whatever the world answers, returns and leaves the variables, the
    DOM, the pending timers and the session objects exactly as the first
    did. *)
Theorem resetTimer_idempotent env1 env2 s :
  resetTimer env2 (final (resetTimer env1 s)) = resetTimer env1 s.
Proof.
  explode s. exec. norm_state. rewrite ?cancel_idem. reflexivity.
Qed.

(** X2. The parameter [isFinished] of [endSession] changes nothing:
    the only statement it guards, [goalInput.disabled = false], repeats
    what [resetTimer] has just done, and is not reached when storing the
    log raises.  [endSession(true)] and [endSession()] give the same
    result, returned or raised, and the same state. *)
Theorem endSession_isFinished_irrelevant env s :
  endSession true env s = endSession false env s.
Proof.
  explode s. exec. (crunch; norm_state; reflexivity).
Qed.

(** X3. The Reset button and the End button do the same thing in every
    state: the listener of Reset, which calls [endSession] only when there
    is a current session and then [resetTimer], returns (or raises) the
    same as [endSession()] and leaves the same state. *)
Theorem reset_button_is_end_button env s :
  resetBtn_click env s = endBtn_click env s.
Proof.
  explode s. exec.
  (crunch; try absurd_decide; norm_state; rewrite ?cancel_idem; reflexivity).
Qed.

(* --------------------------------------------------------------------- *)
(* Exceptions                                                            *)
(* --------------------------------------------------------------------- *)

(** Under the invariant no listener reads a property of [null]. *)
Lemma Inv_no_TypeError env ev s :
  Inv s → enabled ev s →
  raised (dispatch ev env s) ≠ Some TypeError ∧
  (collaborators_work env = true → raised (dispatch ev env s) = None).
Proof.
  unfold collaborators_work.
  intros [Hrun Hidle Hsess Hleft Hsel Hdisp Hexp] Hen.
  destruct ev.
  all: exec; crunch.
  all: try absurd_decide.
  all: split; [try discriminate; try done | intros Hw; try reflexivity].
  all: use_inv; try done.
  all: repeat match goal with
       | H : ?a = _, H' : context [?a] |- _ => rewrite H in H' end; try done.
  all: rewrite ?andb_false_r in Hw; discriminate Hw.
Qed.

(** X4. From the loading of the page on, no listener dereferences
    [null]: no event on a reachable state ends in a TypeError (pausing
    always finds [currentSession] set).  When Tone.js is loaded and no call
    into Tone.js, the Notification API or local storage raises, the
    listener raises nothing at all. *)
Theorem listeners_raise_no_TypeError env ev s :
  reachable s →
  enabled ev s →
  raised (dispatch ev env s) ≠ Some TypeError ∧
  (collaborators_work env = true → raised (dispatch ev env s) = None).
Proof.
  intros Hreach Hen. apply Inv_no_TypeError; [|exact Hen].
  now apply reachable_Inv.
Qed.

(** Pausing the walk. *)
Lemma listeners_raise_no_TypeError_witness :
  raised (dispatch StartClick (world 11000) demo_running) = None.
Proof.
  exact (proj2 (listeners_raise_no_TypeError (world 11000) StartClick
                  demo_running demo_running_reachable I) eq_refl).
Defined.

(* --------------------------------------------------------------------- *)
(* Controls and display                                                  *)
(* --------------------------------------------------------------------- *)

(** The start button and the duration follow the state: at
    initialization, and after every listener. *)
Lemma InvUI_init env stored :
  InvUI (final (initialization env (page_loaded stored))).
Proof.
  exec. crunch; split; cbn; intros; use_facts; try done.
  all: unfold duration_options;
    repeat first [apply list_elem_of_here | apply list_elem_of_further].
Qed.

Lemma InvUI_step env ev s :
  Inv s → InvUI s → enabled ev s → InvUI (final (dispatch ev env s)).
Proof.
  intros [Hrun Hidle Hsess Hleft Hsel Hdisp Hexp] [U1 U2 U3 U4 U5] Hen.
  destruct ev.
  all: exec; crunch.
  all: try absurd_decide.
  all: split; cbn; intros; use_facts; subst; try done; try congruence.
  all: match goal with
       | H : is_Some (currentSession _) |- _ => destruct H as [? H]
       end; use_facts; congruence.
Qed.

Lemma reachable_InvUI s : reachable s → InvUI s.
Proof.
  induction 1 as [env stored | env ev s Hs IH Hen].
  - apply InvUI_init.
  - apply InvUI_step; [now apply reachable_Inv | exact IH | exact Hen].
Qed.

(* --------------------------------------------------------------------- *)
(* The log                                                               *)
(* --------------------------------------------------------------------- *)

(** [splice] only removes. *)
Lemma splice1_sublist {A} (start : Z) (a : list A) :
  splice1 start a `sublist_of` a.
Proof.
  unfold splice1.
  set (k := Z.to_nat _).
  rewrite <- (take_drop k a) at 3.
  apply sublist_app; [reflexivity|].
  replace (S k) with (k + 1)%nat by lia. rewrite <- drop_drop.
  apply sublist_drop.
Qed.

(** The log is well formed at initialization, and after every listener. *)
Lemma InvLog_init env stored :
  InvLog (final (initialization env (page_loaded stored))).
Proof.
  exec. crunch; split; cbn; intros; use_facts; try done.
  all: try by apply NoDup_nil.
  all: try by (match goal with H : _ ∈ [] |- _ => apply elem_of_nil in H end).
  - apply elem_of_seq in H. lia.
  - apply NoDup_seq.
Qed.

Ltac log_facts :=
  repeat match goal with
         | H : ∀ (l : ref), None = Some l → _ |- _ => clear H
         | H : _ ∈ _ :: _ |- _ => apply elem_of_cons in H as [H|H]
         | H : _ ∈ splice1 _ _ |- _ =>
             apply (λ H, elem_of_sublist _ _ _ H (splice1_sublist _ _)) in H
         | H : _ ∈ [] |- _ => by apply elem_of_nil in H
         | H : ∀ l, l ∈ ?ss → (_ < _)%nat, H' : _ ∈ ?ss |- _ =>
             pose proof (H _ H'); clear H
         | H : <[?l := _]> _ !! ?l = Some _ |- _ =>
             rewrite list_lookup_insert_eq in H
               by (rewrite ?length_insert; lia);
             injection H as <-
         | H : (?h ++ [_]) !! length ?h = Some _ |- _ =>
             rewrite lookup_app_r, Nat.sub_diag in H by lia;
             injection H as <-
         end.

Lemma InvLog_step env ev s :
  Inv s → InvLog s → enabled ev s → InvLog (final (dispatch ev env s)).
Proof.
  intros [Hrun Hidle Hsess Hleft Hsel Hdisp Hexp] [L1 L2 L3 L4] Hen.
  destruct ev.
  all: exec; crunch.
  all: try absurd_decide.
  all: split; cbn; intros; rewrite ?length_insert, ?length_app; cbn [length].
  all: try done.
  all: revert L4; use_facts; subst; log_facts; subst; cbn; intros L4.
  all: try done; try lia; try (by eauto).
  all: try (apply (λ H, sublist_NoDup _ _ H (splice1_sublist _ _)); assumption).
  all: try apply NoDup_nil_2.
  all: try (apply NoDup_cons_2; [|assumption]; intros Hin;
            edestruct L4 as [? E]; [reflexivity|eassumption|eassumption|];
            congruence).
Qed.

Lemma reachable_InvLog s : reachable s → InvLog s.
Proof.
  induction 1 as [env stored | env ev s Hs IH Hen].
  - apply InvLog_init.
  - apply InvLog_step; [now apply reachable_Inv | exact IH | exact Hen].
Qed.

(* --------------------------------------------------------------------- *)
(* Pending callbacks                                                     *)
(* --------------------------------------------------------------------- *)

(** The expiries among pending timeouts, through the operations on them. *)
Lemma expiries_app l l' : expiries (l ++ l') = expiries l ++ expiries l'.
Proof. apply filter_app. Qed.

Lemma expiries_cancel id l :
  expiries (cancel handle id l) = cancel handle id (expiries l).
Proof.
  unfold expiries, cancel. destruct id as [h|]; [|reflexivity].
  induction l as [|t l IH]; [reflexivity|].
  rewrite !(filter_cons _ t l).
  destruct (decide (handle t ≠ h)), (decide (callback t = CbOnTimerEnd));
    rewrite ?filter_cons_True, ?filter_cons_False by assumption;
    now rewrite ?IH.
Qed.

Lemma cancel_nil {A} (key : A → nat) id : cancel key id [] = [].
Proof. now destruct id. Qed.

Lemma cancel_current {A} (key : A → nat) x :
  cancel key (Some (key x)) [x] = [].
Proof.
  unfold cancel. rewrite filter_cons_False, filter_nil; [reflexivity|].
  intros H. now apply H.
Qed.

Lemma cancel_frame (f : nat) : cancel (λ f, f) (Some f) [f] = [].
Proof. apply (cancel_current (λ f : nat, f)). Qed.

Lemma cancel_singleton {A} (key : A → nat) id x :
  cancel key id [x] = [] ∨ cancel key id [x] = [x].
Proof.
  unfold cancel. destruct id as [h|]; [|now right].
  rewrite (filter_cons _ x []). destruct (decide (key x ≠ h)); [right|left];
    now rewrite filter_nil.
Qed.

(** At most one frame and one expiry are pending: at initialization, and
    after every listener. *)
Lemma InvPending_init env stored :
  InvPending (final (initialization env (page_loaded stored))).
Proof. exec. crunch; split; cbn; left; reflexivity. Qed.

Ltac pending_cases :=
  repeat match goal with
         | H : _ ∨ _ |- _ => destruct H as [H|H]
         | H : _ ∧ _ |- _ => destruct H
         | H : ∃ _, _ |- _ => destruct H
         end.

Lemma expiries_expiry h d :
  expiries [mkTimeout h CbOnTimerEnd d] = [mkTimeout h CbOnTimerEnd d].
Proof. reflexivity. Qed.

Lemma expiries_other h d : expiries [mkTimeout h CbClearGoalError d] = [].
Proof. reflexivity. Qed.

Lemma InvPending_step env ev s :
  InvPending s → enabled ev s → InvPending (final (dispatch ev env s)).
Proof.
  intros [P1 P2] Hen.
  destruct ev.
  all: exec; crunch.
  all: try absurd_decide.
  all: split; cbn.
  all: rewrite ?expiries_app, ?expiries_cancel, ?expiries_expiry,
         ?expiries_other.
  all: try assumption.
  all: pending_cases; use_facts.
  all: try match goal with
       | Hin : _ ∈ frames _, H : frames _ = [_] |- _ =>
           rewrite H in Hin; apply list_elem_of_singleton in Hin; subst
       | Hin : _ ∈ frames _, H : frames _ = [] |- _ =>
           rewrite H in Hin; by apply elem_of_nil in Hin
       end.
  all: repeat match goal with
       | H : frames _ = _ |- _ => rewrite H
       | H : expiries _ = _ |- _ => rewrite H
       | H : animationFrameId _ = _ |- _ => rewrite H
       | H : timeoutId _ = _ |- _ => rewrite H
       end.
  all: rewrite ?cancel_nil, ?cancel_current, ?cancel_frame, ?app_nil_l,
         ?app_nil_r.
  all: try (left; reflexivity).
  all: try (right; split; [reflexivity|]; eexists; split; reflexivity).
  all: repeat (match goal with
               | |- context [cancel ?k ?i [?x]] =>
                   destruct (cancel_singleton k i x) as [-> | ->]
               end;
               rewrite ?cancel_nil, ?cancel_current, ?cancel_frame).
  all: rewrite ?cancel_nil, ?cancel_current, ?cancel_frame, ?app_nil_l,
         ?app_nil_r.
  all: try (left; reflexivity).
  all: try (right; split; [reflexivity || assumption|]; eexists; split;
            reflexivity || assumption).
Qed.

Lemma reachable_InvPending s : reachable s → InvPending s.
Proof.
  induction 1 as [env stored | env ev s Hs IH Hen].
  - apply InvPending_init.
  - now apply InvPending_step.
Qed.

(* --------------------------------------------------------------------- *)
(* The invariants, on reachable states                                   *)
(* --------------------------------------------------------------------- *)

(** X5. In every reachable state the timer display shows [timeLeft]:
    non-negative minutes and seconds below 60 that add up to it. *)
Theorem display_shows_time_left s :
  reachable s →
  ∃ minutes seconds,
    timerDisplay (dom s) = (minutes, seconds) ∧
    0 ≤ minutes ∧ 0 ≤ seconds < 60 ∧
    60 * minutes + seconds = timeLeft (vars s).
Proof.
  intros Hreach.
  destruct (reachable_Inv s Hreach) as [_ _ _ Hleft _ Hd _].
  exists (timeLeft (vars s) / 60), (Z.rem (timeLeft (vars s)) 60).
  split; [exact Hd|].
  rewrite Z.rem_mod_nonneg by lia.
  pose proof (Z.div_mod (timeLeft (vars s)) 60 ltac:(lia)).
  pose proof (Z.mod_pos_bound (timeLeft (vars s)) 60 ltac:(lia)).
  pose proof (Z.div_pos (timeLeft (vars s)) 60 Hleft ltac:(lia)).
  lia.
Qed.

Lemma demo_paused_reachable : reachable demo_paused.
Proof.
  apply (reach_step (world 11000) StartClick demo_running); [|exact I].
  exact demo_running_reachable.
Qed.

(** Paused with 1496 s left, the display reads 24:56. *)
Lemma display_shows_time_left_witness :
  timerDisplay (dom demo_ticked_paused) = (24, 56) ∧
  timeLeft (vars demo_ticked_paused) = 1496.
Proof.
  destruct (display_shows_time_left demo_ticked_paused
              demo_ticked_paused_reachable)
    as (m & sec & Hd & _ & _ & Hsum).
  injection Hd as <- <-. split; reflexivity.
Defined.

(** X6. In every reachable state the controls follow the session: the
    start button reads [Start] exactly when there is no current session,
    [Pause] whenever the timer runs, and [Resume] only on a stopped timer
    with a session; the duration select and the goal input are disabled
    exactly when there is a current session. *)
Theorem controls_follow_the_session s :
  reachable s →
  (currentSession (vars s) = None ↔ startBtn_textContent (dom s) = LStart) ∧
  (isRunning (vars s) = true → startBtn_textContent (dom s) = LPause) ∧
  (startBtn_textContent (dom s) = LResume →
   isRunning (vars s) = false ∧ is_Some (currentSession (vars s))) ∧
  durationSelect_disabled (dom s)
  = bool_decide (is_Some (currentSession (vars s))) ∧
  goalInput_disabled (dom s)
  = bool_decide (is_Some (currentSession (vars s))).
Proof.
  intros Hreach.
  destruct (reachable_Inv s Hreach) as [_ Hi Hs _ _ _ _].
  destruct (reachable_InvUI s Hreach) as [U1 U2 U3 _ _].
  destruct (currentSession (vars s)) as [l|] eqn:Hc.
  - destruct (Hs l eq_refl) as (_ & D1 & D2 & _).
    assert (Hne : startBtn_textContent (dom s) ≠ LStart) by (apply U1; eauto).
    split; [split; [discriminate | intros HL; contradiction]|].
    split; [exact U2|].
    split; [intros HR; split; [now apply U3 | eauto]|].
    split; assumption.
  - destruct (Hi eq_refl) as (_ & _ & L & D1 & D2).
    split; [split; [intros _; exact L | reflexivity]|].
    split; [exact U2|].
    split; [intros HR; rewrite L in HR; discriminate HR|].
    split; assumption.
Qed.

(** The walk, paused. *)
Lemma controls_follow_the_session_witness :
  startBtn_textContent (dom demo_paused) = LResume ∧
  durationSelect_disabled (dom demo_paused) = true ∧
  goalInput_disabled (dom demo_paused) = true.
Proof.
  destruct (controls_follow_the_session demo_paused demo_paused_reachable)
    as (_ & _ & _ & D1 & D2).
  split; [reflexivity|]. split; [exact D1 | exact D2].
Defined.

(** X7. In every reachable state [duration] is sixty times the selected
    option of the duration select, one of those index.html offers, so
    between 5 and 90 minutes; without a current session [timeLeft] is that
    duration. *)
Theorem duration_is_the_selected_option s :
  reachable s →
  durationSelect_value (dom s) ∈ duration_options ∧
  duration (vars s) = durationSelect_value (dom s) * 60 ∧
  300 ≤ duration (vars s) ≤ 5400 ∧
  (currentSession (vars s) = None → timeLeft (vars s) = duration (vars s)).
Proof.
  intros Hreach.
  destruct (reachable_Inv s Hreach) as [_ Hi _ _ _ _ _].
  destruct (reachable_InvUI s Hreach) as [_ _ _ U4 U5].
  split; [exact U5|]. split; [exact U4|]. split.
  - rewrite U4. revert U5. generalize (durationSelect_value (dom s)).
    unfold duration_options. intros m H.
    repeat (apply elem_of_cons in H as [->|H]; [lia|]).
    by apply elem_of_nil in H.
  - intros Hc. now destruct (Hi Hc).
Qed.

(** Selecting 45 minutes on the fresh page. *)
Lemma duration_is_the_selected_option_witness :
  let s := final (dispatch (SelectDuration 45) (world 0) demo_loaded) in
  duration (vars s) = 2700 ∧ timeLeft (vars s) = 2700.
Proof.
  intros s.
  assert (Hreach : reachable s).
  { apply (reach_step (world 0) (SelectDuration 45) demo_loaded).
    - apply reach_init.
    - split; [reflexivity|]. unfold duration_options.
      repeat first [apply list_elem_of_here | apply list_elem_of_further]. }
  destruct (duration_is_the_selected_option s Hreach) as (_ & Hd & _ & Ht).
  split; [exact Hd | exact (Ht eq_refl)].
Defined.

Lemma length_le_one {A} (l : list A) :
  l = [] ∨ (∃ x, l = [x]) → (length l ≤ 1)%nat.
Proof. intros [->|[x ->]]; cbn; lia. Qed.

(** X8. In every reachable state at most one frame of the display loop
    and at most one [onTimerEnd] timeout are pending; a pending one belongs
    to a running timer and is the one [animationFrameId], respectively
    [timeoutId], names.  A paused or idle timer therefore neither ticks nor
    expires. *)
Theorem one_frame_and_one_expiry_pending s :
  reachable s →
  (length (frames (browser s)) ≤ 1)%nat ∧
  (length (expiries (timeouts (browser s))) ≤ 1)%nat ∧
  (∀ f, f ∈ frames (browser s) →
     isRunning (vars s) = true ∧ animationFrameId (vars s) = Some f) ∧
  (∀ t, t ∈ timeouts (browser s) → callback t = CbOnTimerEnd →
     isRunning (vars s) = true ∧ timeoutId (vars s) = Some (handle t)).
Proof.
  intros Hreach.
  destruct (reachable_Inv s Hreach) as [_ _ _ _ _ _ Hexp].
  destruct (reachable_InvPending s Hreach) as [P1 P2].
  split; [|split; [|split]].
  - apply length_le_one. destruct P1 as [P1|(_ & f & P1 & _)]; eauto.
  - apply length_le_one. destruct P2 as [P2|(_ & t & P2 & _)]; eauto.
  - intros f Hf. destruct P1 as [P1|(Hr & g & P1 & Hid)].
    + rewrite P1 in Hf. by apply elem_of_nil in Hf.
    + rewrite P1 in Hf. apply list_elem_of_singleton in Hf. now subst.
  - exact Hexp.
Qed.

(** The walk, resumed: the one frame pending is the one requested last. *)
Lemma one_frame_and_one_expiry_pending_witness :
  frames (browser demo_resumed) = [3%nat] ∧
  animationFrameId (vars demo_resumed) = Some 3%nat.
Proof.
  destruct (one_frame_and_one_expiry_pending demo_resumed demo_resumed_reachable)
    as (_ & _ & Hf & _).
  split; [vm_compute; reflexivity|].
  exact (proj2 (Hf 3%nat ltac:(vm_compute; apply list_elem_of_singleton;
                                reflexivity))).
Defined.

(** X9. In every reachable state the array [sessions] holds each session
    object at most once, every entry is an object that exists (so each is
    rendered and stored), and a current session that has not ended is not
    in it. *)
Theorem log_holds_each_session_once s :
  reachable s →
  NoDup (sessions (vars s)) ∧
  (∀ l, l ∈ sessions (vars s) → is_Some (heap s !! l)) ∧
  (∀ l r, open_session s = Some (l, r) → l ∉ sessions (vars s)) ∧
  length (session_values s) = length (sessions (vars s)).
Proof.
  intros Hreach.
  destruct (reachable_InvLog s Hreach) as [L1 L2 L3 L4].
  split; [exact L3|]. split; [|split].
  - intros l Hl. apply lookup_lt_is_Some. now apply L1.
  - unfold open_session. intros l r Hopen Hin.
    destruct (currentSession (vars s)) as [l'|] eqn:Hc; [|discriminate].
    destruct (heap s !! l') as [r'|] eqn:Hh; [|discriminate].
    destruct (endTime r') eqn:He; [discriminate|].
    injection Hopen as -> ->.
    destruct (L4 l r eq_refl Hin Hh) as [? E]. congruence.
  - unfold session_values. revert L1.
    generalize (sessions (vars s)). intros ss.
    induction ss as [|l ss IH]; intros L1; [reflexivity|].
    cbn. destruct (heap s !! l) as [r|] eqn:Hl.
    + cbn. f_equal. apply IH. intros k Hk. apply L1. now right.
    + apply lookup_ge_None in Hl.
      specialize (L1 l ltac:(left)). lia.
Qed.

(** The walk, ended: one entry. *)
Lemma log_holds_each_session_once_witness :
  sessions (vars demo_ended) = [0%nat] ∧
  length (session_values demo_ended) = 1%nat.
Proof.
  assert (Hreach : reachable demo_ended).
  { apply (reach_step (world 21000) EndClick demo_resumed); [|exact I].
    exact demo_resumed_reachable. }
  destruct (log_holds_each_session_once demo_ended Hreach) as (_ & _ & _ & Hl).
  split; [vm_compute; reflexivity | exact Hl].
Defined.

(* --------------------------------------------------------------------- *)
(* The countdown                                                         *)
(* --------------------------------------------------------------------- *)

(** Rounding to seconds is monotone, and positive from half a second on. *)
Lemma Math_round_div1000_mono a b :
  a ≤ b → Math_round_div1000 a ≤ Math_round_div1000 b.
Proof. intros H. unfold Math_round_div1000. apply Z.div_le_mono; lia. Qed.

Lemma Math_round_div1000_pos a : 0 < Math_round_div1000 a ↔ 500 ≤ a.
Proof.
  pose proof (Math_round_div1000_nearest a). lia.
Qed.

(** One frame on a running timer, in full. *)
Lemma updateDisplayLoop_frame env s deadline :
  isRunning (vars s) = true →
  targetTime (vars s) = Some deadline →
  0 ≤ timeLeft (vars s) →
  let s' := final (updateDisplayLoop env s) in
  let left := Z.max 0 (Math_round_div1000 (deadline - Date_now env)) in
  timeLeft (vars s') = left ∧
  isRunning (vars s') = true ∧ targetTime (vars s') = Some deadline ∧
  heap s' = heap s ∧ currentSession (vars s') = currentSession (vars s) ∧
  sessions (vars s') = sessions (vars s) ∧
  timeouts (browser s') = timeouts (browser s) ∧
  (if 0 <? left
   then frames (browser s') = frames (browser s) ++ [next_handle (browser s)]
        ∧ animationFrameId (vars s') = Some (next_handle (browser s))
   else frames (browser s') = frames (browser s)).
Proof.
  intros Hrun Ht Hleft. exec. rewrite Hrun. cbn. rewrite Ht. cbn.
  destruct (Math_round_div1000 (deadline - Date_now env) =? timeLeft (vars s))
    eqn:E1; cbn.
  - apply Z.eqb_eq in E1. rewrite Z.max_r by lia. rewrite E1.
    destruct (0 <? timeLeft (vars s)) eqn:E2; cbn; repeat split; try done.
  - destruct (0 <? Math_round_div1000 (deadline - Date_now env)) eqn:E2; cbn.
    + apply Z.ltb_lt in E2. rewrite Z.max_r by lia.
      assert (E3 : (0 <? Math_round_div1000 (deadline - Date_now env)) = true)
        by now apply Z.ltb_lt.
      rewrite E3. cbn. repeat split; done.
    + apply Z.ltb_ge in E2. rewrite Z.max_l by lia. cbn. repeat split; done.
Qed.

(** X10. While the timer runs, the display loop never lets [timeLeft]
    go up or below 0: of two successive frames, the clock of the second
    not before that of the first, the second leaves [timeLeft] at most
    what the first left.  A frame less than half a second before the
    deadline, or after it, leaves 0 and requests no further frame; an
    earlier one leaves a positive [timeLeft] and requests exactly one. *)
Theorem countdown_never_increases env1 env2 s :
  reachable s →
  isRunning (vars s) = true →
  Date_now env1 ≤ Date_now env2 →
  let s1 := final (updateDisplayLoop env1 s) in
  let s2 := final (updateDisplayLoop env2 s1) in
  0 ≤ timeLeft (vars s2) ≤ timeLeft (vars s1) ∧
  (∀ deadline, targetTime (vars s) = Some deadline →
     (deadline - Date_now env1 < 500 →
        timeLeft (vars s1) = 0 ∧ frames (browser s1) = frames (browser s)) ∧
     (500 ≤ deadline - Date_now env1 →
        0 < timeLeft (vars s1) ∧
        frames (browser s1) = frames (browser s) ++ [next_handle (browser s)])).
Proof.
  intros Hreach Hrun Hclock s1 s2.
  destruct (reachable_Inv s Hreach) as [Hr _ _ Hleft _ _ _].
  destruct (Hr Hrun) as [_ [deadline Ht]].
  destruct (updateDisplayLoop_frame env1 s deadline Hrun Ht Hleft)
    as (A1 & A2 & A3 & _ & _ & _ & _ & A4).
  fold s1 in A1, A2, A3, A4.
  destruct (updateDisplayLoop_frame env2 s1 deadline A2 A3 ltac:(lia))
    as (B1 & _).
  fold s2 in B1.
  pose proof (Math_round_div1000_mono (deadline - Date_now env2)
                (deadline - Date_now env1) ltac:(lia)) as Hmono.
  split; [lia|].
  intros d Hd. rewrite Ht in Hd. injection Hd as <-.
  pose proof (Math_round_div1000_pos (deadline - Date_now env1)) as Hpos.
  split; intros Hlt.
  - assert (E : Z.max 0 (Math_round_div1000 (deadline - Date_now env1)) = 0)
      by lia.
    rewrite E in A1, A4. cbn in A4. now split.
  - assert (E : 0 < Z.max 0 (Math_round_div1000 (deadline - Date_now env1)))
      by lia.
    apply Z.ltb_lt in E as E'. rewrite E' in A4.
    split; [lia | apply A4].
Qed.

(** Frames at 3.4 s and at 9 s of the walk. *)
Lemma countdown_never_increases_witness :
  timeLeft (vars (final (updateDisplayLoop (world 3400) demo_running))) = 1498 ∧
  timeLeft (vars (final (updateDisplayLoop (world 9000)
                    (final (updateDisplayLoop (world 3400) demo_running)))))
  ≤ timeLeft (vars (final (updateDisplayLoop (world 3400) demo_running))).
Proof.
  destruct (countdown_never_increases (world 3400) (world 9000) demo_running
              demo_running_reachable eq_refl ltac:(vm_compute; discriminate))
    as ([_ H] & _).
  split; [vm_compute; reflexivity | exact H].
Defined.

(** The first start of a session, in full. *)
Lemma startTimer_creates env s :
  isRunning (vars s) = false →
  currentSession (vars s) = None →
  Tone_defined env = true →
  truthy (trim (goalInput_value (dom s))) = true →
  let s' := final (startTimer env s) in
  returns (startTimer env s) = true ∧
  currentSession (vars s') = Some (length (heap s)) ∧
  heap s' = heap s ++ [mkSession (goalInput_value (dom s)) (new_Date env)
                         None 0 []] ∧
  sessions (vars s') = sessions (vars s) ∧
  isRunning (vars s') = true ∧
  startBtn_textContent (dom s') = LPause ∧
  durationSelect_disabled (dom s') = true ∧
  goalInput_disabled (dom s') = true ∧
  goalInput_value (dom s') = goalInput_value (dom s) ∧
  timeouts (browser s')
  = timeouts (browser s)
    ++ [mkTimeout (next_handle (browser s)) CbOnTimerEnd
          (timeLeft (vars s) * 1000)] ∧
  frames (browser s') = frames (browser s) ++ [S (next_handle (browser s))].
Proof.
  intros Hrun Hc Htone Hgoal. exec. rewrite Htone. cbn.
  destruct (Notification_in_window env), (Notification_permission env);
    cbn; rewrite Hrun; cbn; rewrite Hgoal; cbn; rewrite Hc; cbn; done.
Qed.

(** X11. Starting from a reachable state without a current session,
    with a goal that is not blank and Tone.js loaded, returns and creates
    the session: a new object, with the goal as typed (not trimmed),
    [startTime] the instant of the call, no [endTime], duration 0 and no
    pauses, becomes the current session and is not yet in the log; the
    timer runs for the selected duration, the start button reads
    [Pause], select and goal input are disabled, and one [onTimerEnd]
    timeout, after the duration, and one frame are added to the pending
    ones. *)
Theorem first_start_creates_the_session env s :
  reachable s →
  currentSession (vars s) = None →
  Tone_defined env = true →
  truthy (trim (goalInput_value (dom s))) = true →
  let s' := final (startTimer env s) in
  returns (startTimer env s) = true ∧
  currentSession (vars s') = Some (length (heap s)) ∧
  heap s' = heap s ++ [mkSession (goalInput_value (dom s)) (new_Date env)
                         None 0 []] ∧
  sessions (vars s') = sessions (vars s) ∧
  isRunning (vars s') = true ∧
  timeLeft (vars s') = duration (vars s) ∧
  startBtn_textContent (dom s') = LPause ∧
  durationSelect_disabled (dom s') = true ∧
  goalInput_disabled (dom s') = true ∧
  goalInput_value (dom s') = goalInput_value (dom s) ∧
  timeouts (browser s')
  = timeouts (browser s)
    ++ [mkTimeout (next_handle (browser s)) CbOnTimerEnd
          (duration (vars s) * 1000)] ∧
  frames (browser s') = frames (browser s) ++ [S (next_handle (browser s))].
Proof.
  intros Hreach Hc Htone Hgoal s'.
  destruct (reachable_Inv s Hreach) as [Hr Hi _ _ _ _ _].
  assert (Hrun : isRunning (vars s) = false).
  { destruct (isRunning (vars s)); [|reflexivity].
    destruct (Hr eq_refl) as [[l Hl] _]. congruence. }
  destruct (Hi Hc) as (Hleft & _).
  destruct (startTimer_creates env s Hrun Hc Htone Hgoal)
    as (A1 & A2 & A3 & A4 & A5 & A6 & A7 & A8 & A9 & A10 & A11).
  destruct (startTimer_sets_deadline env s Hrun Htone Hgoal)
    as (_ & _ & B & _).
  rewrite <- Hleft.
  repeat split; assumption.
Qed.

(** The start of the walk. *)
Lemma first_start_creates_the_session_witness :
  heap (final (startTimer (world 1000) demo_typed))
  = [mkSession goal_x 1000 None 0 []].
Proof.
  exact (proj1 (proj2 (proj2 (first_start_creates_the_session (world 1000)
                                demo_typed demo_typed_reachable
                                eq_refl eq_refl eq_refl)))).
Defined.

(* --------------------------------------------------------------------- *)
(* Durations logged                                                      *)
(* --------------------------------------------------------------------- *)

(** The nearest second of an instant within half a second of [k] seconds. *)
Lemma Math_round_div1000_unique ms k :
  1000 * k - 500 ≤ ms < 1000 * k + 500 → Math_round_div1000 ms = k.
Proof.
  intros H. pose proof (Math_round_div1000_nearest ms). lia.
Qed.

(** The display loop touches neither the session objects nor the log. *)
Lemma updateDisplayLoop_keeps env s :
  let s' := final (updateDisplayLoop env s) in
  heap s' = heap s ∧ currentSession (vars s') = currentSession (vars s) ∧
  sessions (vars s') = sessions (vars s).
Proof. exec. crunch; done. Qed.

Lemma ticks_keeps envs s :
  heap (ticks envs s) = heap s ∧
  currentSession (vars (ticks envs s)) = currentSession (vars s) ∧
  sessions (vars (ticks envs s)) = sessions (vars s).
Proof.
  revert s. induction envs as [|env envs IH]; intros s; [done|].
  change (ticks (env :: envs) s)
    with (ticks envs (final (updateDisplayLoop env s))).
  destruct (IH (final (updateDisplayLoop env s))) as (-> & -> & ->).
  apply updateDisplayLoop_keeps.
Qed.

(** X12. A session that is started, sees any number of frames of the
    display loop and is then ended (by hand or by expiry), is logged first
    with the goal typed, no pauses and [duration] the number of seconds
    from start to end rounded to the nearest: ending within half a second
    of [k] seconds after the start logs [k]. *)
Theorem uninterrupted_session_duration isFinished env0 envs env1 s :
  isRunning (vars s) = false →
  currentSession (vars s) = None →
  Tone_defined env0 = true →
  truthy (trim (goalInput_value (dom s))) = true →
  let started := final (startTimer env0 s) in
  let ended := final (endSession isFinished env1 (ticks envs started)) in
  let elapsed := new_Date env1 - new_Date env0 in
  sessions (vars ended) = length (heap s) :: sessions (vars s) ∧
  heap ended !! length (heap s)
  = Some (mkSession (goalInput_value (dom s)) (new_Date env0)
            (Some (new_Date env1)) (Math_round_div1000 elapsed) []) ∧
  (∀ k, 1000 * k - 500 ≤ elapsed < 1000 * k + 500 →
     Math_round_div1000 elapsed = k).
Proof.
  intros Hrun Hc Htone Hgoal. cbv zeta.
  destruct (startTimer_creates env0 s Hrun Hc Htone Hgoal)
    as (_ & S1 & S2 & S3 & _).
  set (started := final (startTimer env0 s)) in *.
  destruct (ticks_keeps envs started) as (T1 & T2 & T3).
  assert (Hl : heap (ticks envs started) !! length (heap s)
               = Some (mkSession (goalInput_value (dom s)) (new_Date env0)
                         None 0 [])).
  { rewrite T1, S2. rewrite lookup_app_r, Nat.sub_diag by lia. reflexivity. }
  destruct (endSession_finalizes isFinished env1 (ticks envs started)
              (length (heap s)) _ ltac:(now rewrite T2) Hl eq_refl)
    as (_ & E1 & E2).
  split; [now rewrite E2, T3, S3|].
  split; [etrans; [exact E1|]; unfold finalized; cbn; do 3 f_equal; lia|].
  intros k Hk. now apply Math_round_div1000_unique.
Qed.

(** Started at 1 s and expired at 1501.2 s: 1500 s are logged. *)
Lemma uninterrupted_session_duration_witness :
  let ended :=
    final (endSession true (world 1501200)
             (ticks [world 5000; world 900000]
                (final (startTimer (world 1000) demo_typed)))) in
  heap ended !! 0%nat
  = Some (mkSession goal_x 1000 (Some 1501200) 1500 []).
Proof.
  intros ended.
  destruct (uninterrupted_session_duration true (world 1000)
              [world 5000; world 900000] (world 1501200) demo_typed
              eq_refl eq_refl eq_refl eq_refl) as (_ & H & Hk).
  change (new_Date (world 1501200) - new_Date (world 1000)) with 1500200 in *.
  rewrite (Hk 1500 ltac:(lia)) in H. exact H.
Defined.

(** A pause left open adds nothing to the total. *)
Lemma totalPauseTime_open ps t :
  totalPauseTime (ps ++ [mkPause t None]) = totalPauseTime ps.
Proof.
  rewrite !totalPauseTime_sum, map_app. unfold sumZ at 1.
  rewrite foldr_app. cbn. fold (sumZ (map completed_length ps)).
  unfold completed_length at 1. cbn. reflexivity.
Qed.

(** X13. Ending a session while it is paused: the open pause stays in
    the record with [resumeTime] null and nothing is subtracted for it, so
    the time from the pause to the end counts as time worked.  The
    duration logged is the one logged by ending at the same instant
    without having paused. *)
Theorem end_while_paused_counts_the_pause env1 env2 isFinished s l r :
  currentSession (vars s) = Some l →
  heap s !! l = Some r →
  endTime r = None →
  isRunning (vars s) = true →
  Tone_defined env1 = true →
  let paused := final (startTimer env1 s) in
  let ended := final (endSession isFinished env2 paused) in
  let direct := final (endSession isFinished env2 s) in
  ∃ r1 r2,
    heap ended !! l = Some r1 ∧ heap direct !! l = Some r2 ∧
    pauses r1 = pauses r ++ [mkPause (new_Date env1) None] ∧
    pauses r2 = pauses r ∧
    endTime r1 = Some (new_Date env2) ∧
    sduration r1
    = Math_round_div1000
        ((new_Date env2 - startTime r) - totalPauseTime (pauses r)) ∧
    sduration r1 = sduration r2 ∧
    sessions (vars ended) = l :: sessions (vars s).
Proof.
  intros Hc Hl He Hrun Htone. cbv zeta.
  destruct (startTimer_pauses env1 s l r Hc Hl Htone Hrun)
    as (_ & _ & _ & P4 & _ & P6).
  set (paused := final (startTimer env1 s)) in *.
  pose proof (lookup_lt_Some _ _ _ Hl) as Hlt.
  assert (Hl1 : heap paused !! l
                = Some (with_pauses (pauses r ++ [mkPause (new_Date env1) None]) r))
    by (rewrite P6; now apply list_lookup_insert_eq).
  destruct (endSession_finalizes isFinished env2 paused l _ P4 Hl1 He)
    as (_ & E1 & E2).
  destruct (endSession_finalizes isFinished env2 s l r Hc Hl He)
    as (_ & D1 & _).
  eexists _, _. split; [exact E1|]. split; [exact D1|].
  cbn. rewrite totalPauseTime_open.
  repeat split; try reflexivity.
  rewrite E2. f_equal.
  revert Hrun Hc Hl Htone. clear. intros Hrun Hc Hl Htone. subst paused.
  exec. rewrite Htone. cbn.
  destruct (Notification_in_window env1), (Notification_permission env1);
    cbn; rewrite Hrun; cbn; rewrite Hc; cbn; rewrite Hl; cbn; done.
Qed.

(** The walk, ended at 21 s while paused since 11 s: 20 s are logged. *)
Lemma end_while_paused_counts_the_pause_witness :
  ∃ r1,
    heap (final (endSession false (world 21000) demo_paused)) !! 0%nat
    = Some r1 ∧
    pauses r1 = [mkPause 11000 None] ∧ sduration r1 = 20.
Proof.
  destruct (end_while_paused_counts_the_pause (world 11000) (world 21000)
              false demo_running 0%nat (mkSession goal_x 1000 None 0 [])
              eq_refl eq_refl eq_refl eq_refl eq_refl)
    as (r1 & r2 & H1 & _ & Hp & _ & _ & Hd & _).
  exists r1. split; [exact H1|]. split; [exact Hp | exact Hd].
Defined.

(** Writing to an object the log does not refer to leaves the log's
    values. *)
Lemma omap_lookup_insert_notin (h : list Session) l x (ss : list ref) :
  l ∉ ss → omap (λ k, <[l := x]> h !! k) ss = omap (λ k, h !! k) ss.
Proof.
  induction ss as [|k ss IH]; intros Hn; [reflexivity|].
  apply not_elem_of_cons in Hn as [Hne Hn].
  cbn. rewrite list_lookup_insert_ne by congruence. now rewrite IH.
Qed.

Lemma open_session_Some s l r :
  open_session s = Some (l, r) →
  currentSession (vars s) = Some l ∧ heap s !! l = Some r ∧ endTime r = None.
Proof.
  unfold open_session.
  destruct (currentSession (vars s)) as [l'|]; [|discriminate].
  destruct (heap s !! l') as [r'|] eqn:Hh; [|discriminate].
  destruct (endTime r') eqn:He; [discriminate|].
  intros [= <- <-]. done.
Qed.

(** X14. Ending the open session of a reachable state puts its record,
    finalized, in front of the log and leaves every older entry as it was;
    the table shows that list, and it is what is stored when local storage
    is available and takes it. *)
Theorem endSession_logs_newest_first isFinished env s l r :
  reachable s →
  open_session s = Some (l, r) →
  let s' := final (endSession isFinished env s) in
  session_values s' = finalized (new_Date env) r :: session_values s ∧
  sessionLog (dom s') = session_values s' ∧
  (localStorage_available env = true →
   localStorage_setItem_throws env = false →
   localStorage (browser s') = Some (session_values s')).
Proof.
  intros Hreach Hopen. cbv zeta.
  apply open_session_Some in Hopen as (Hc & Hl & He).
  destruct (reachable_InvLog s Hreach) as [_ _ _ L4].
  destruct (endSession_finalizes isFinished env s l r Hc Hl He)
    as (E1 & E2 & E3).
  destruct (endSession_shows_log isFinished env s l r Hc Hl He)
    as (S1 & S2 & _).
  split; [|split; assumption].
  unfold session_values. rewrite E3. cbn. rewrite E2. f_equal.
  rewrite E1. apply omap_lookup_insert_notin.
  intros Hin. destruct (L4 l r Hc Hin Hl) as [? E]. congruence.
Qed.

(** The end of the walk. *)
Lemma endSession_logs_newest_first_witness :
  session_values demo_ended
  = [mkSession goal_x 1000 (Some 21000) 15 [mkPause 11000 (Some 16000)]].
Proof.
  exact (proj1 (endSession_logs_newest_first false (world 21000) demo_resumed
                  0%nat
                  (mkSession goal_x 1000 None 0 [mkPause 11000 (Some 16000)])
                  demo_resumed_reachable ltac:(vm_compute; reflexivity))).
Defined.

(* --------------------------------------------------------------------- *)
(* Local storage and the utility functions                               *)
(* --------------------------------------------------------------------- *)

(** Objects made by [JSON.parse], read through their references. *)
Lemma omap_lookup_seq (h log : list Session) :
  omap (λ l, (h ++ log) !! l) (seq (length h) (length log)) = log.
Proof.
  revert h. induction log as [|x log IH]; intros h; [reflexivity|].
  cbn. rewrite lookup_app_r by lia. rewrite Nat.sub_diag. cbn.
  f_equal.
  specialize (IH (h ++ [x])).
  rewrite <- app_assoc, length_app in IH. cbn in IH.
  rewrite Nat.add_1_r in IH. exact IH.
Qed.

(** The state after initialization. *)
Lemma initialization_loads env stored :
  let s := final (initialization env (page_loaded stored)) in
  returns (initialization env (page_loaded stored)) = true ∧
  session_values s
  = (if localStorage_available env then default [] stored else []) ∧
  sessionLog (dom s) = session_values s ∧
  localStorage (browser s) = stored ∧
  currentSession (vars s) = None ∧ isRunning (vars s) = false ∧
  timeLeft (vars s) = 1500 ∧ timerDisplay (dom s) = (25, 0).
Proof.
  unfold session_values. exec.
  destruct (localStorage_available env); [|done].
  destruct stored as [log|]; [|done].
  cbn. pose proof (omap_lookup_seq [] log) as H. cbn in H.
  repeat split; try done; exact H.
Qed.

(** X15. What [saveSessions] stores is what [loadSessions] reads back:
    after a successful save, loading the page with that storage gives a
    log with the same records in the same order, shown in the table; when
    local storage is not available at loading, the log and the table are
    empty. *)
Theorem stored_log_is_reloaded env env' s :
  localStorage_available env = true →
  localStorage_setItem_throws env = false →
  let saved := final (saveSessions env s) in
  let reloaded :=
    final (initialization env' (page_loaded (localStorage (browser saved)))) in
  returns (saveSessions env s) = true ∧
  localStorage (browser saved) = Some (session_values s) ∧
  (localStorage_available env' = true →
   session_values reloaded = session_values s ∧
   sessionLog (dom reloaded) = session_values s) ∧
  (localStorage_available env' = false →
   session_values reloaded = [] ∧ sessionLog (dom reloaded) = []).
Proof.
  intros Hav Hok. cbv zeta.
  assert (Hsaved : returns (saveSessions env s) = true ∧
                   localStorage (browser (final (saveSessions env s)))
                   = Some (session_values s)).
  { exec. rewrite Hav. cbn. rewrite Hok. cbn. done. }
  destruct Hsaved as [Hret Hsaved]. rewrite Hsaved.
  destruct (initialization_loads env' (Some (session_values s)))
    as (_ & I1 & I2 & _).
  split; [exact Hret|]. split; [reflexivity|].
  split; intros Hav'; rewrite Hav' in I1; cbn in I1; rewrite I2, I1; done.
Qed.

(** Loading the page again after the walk. *)
Lemma stored_log_is_reloaded_witness :
  session_values
    (final (initialization (world 0)
              (page_loaded (localStorage (browser demo_ended)))))
  = [mkSession goal_x 1000 (Some 21000) 15 [mkPause 11000 (Some 16000)]].
Proof.
  pose proof (stored_log_is_reloaded (world 30000) (world 0) demo_ended
                eq_refl eq_refl) as (_ & _ & H & _).
  exact (proj1 (H eq_refl)).
Defined.

(** A negative number prints as a minus sign and its absolute value. *)
Lemma Number_toString_neg z :
  z < 0 → Number_toString z = 45%N :: Number_toString (- z).
Proof. destruct z; [lia | lia | reflexivity]. Qed.

(** [join] with one more part. *)
Lemma join_snoc sep parts p :
  join sep (parts ++ [p])
  = match parts with
    | [] => p
    | _ :: _ => join sep parts ++ sep ++ p
    end.
Proof.
  destruct parts as [|q parts]; cbn; [apply app_nil_r|].
  rewrite map_app, concat_app. cbn. rewrite !app_nil_r.
  now rewrite <- !app_assoc.
Qed.

(** X16. [formatPauses] renders a pause that was never resumed with a
    negative length: [new Date(null)] is the epoch, so for a [pauseTime]
    more than half a second after the epoch the entry reads
    ["Paused for -Ns"], [N] being the [pauseTime] in seconds, rounded.
    The entry follows those of the earlier pauses after a ["<br>"]. *)
Theorem formatPauses_open_pause ps t :
  500 < t →
  formatPauses (ps ++ [mkPause t None])
  = match ps with
    | [] => []
    | _ :: _ => formatPauses ps ++ Text.br
    end
    ++ Text.Paused_for
    ++ 45%N :: Number_toString (- Math_round_div1000 (0 - t)) ++ Text.s_ ∧
  0 < - Math_round_div1000 (0 - t) ∧
  1000 * (- Math_round_div1000 (0 - t)) - 500 < t
  ≤ 1000 * (- Math_round_div1000 (0 - t)) + 500.
Proof.
  intros Ht.
  pose proof (Math_round_div1000_nearest (0 - t)) as Hn.
  assert (Hneg : Math_round_div1000 (0 - t) < 0) by lia.
  split; [|lia].
  assert (He : formatPauses_entry (mkPause t None)
               = Text.Paused_for
                   ++ 45%N :: Number_toString (- Math_round_div1000 (0 - t))
                   ++ Text.s_).
  { unfold formatPauses_entry. cbn [resumeTime pauseTime new_Date_of].
    now rewrite (Number_toString_neg _ Hneg). }
  unfold formatPauses.
  destruct ps as [|p ps];
    [cbn [app map join concat]; rewrite He; now rewrite app_nil_r|].
  change ((p :: ps) ++ [mkPause t None]) with (p :: (ps ++ [mkPause t None])).
  rewrite app_comm_cons, map_app. cbn [map].
  rewrite join_snoc. rewrite He.
  destruct (map formatPauses_entry (p :: ps)) eqn:E; [discriminate|].
  now rewrite <- !app_assoc.
Qed.

(** A pause of 3 s and one left open at 11 s:
    ["Paused for 3s<br>Paused for -11s"]. *)
Lemma formatPauses_open_pause_witness :
  formatPauses [mkPause 5000 (Some 8000); mkPause 11000 None]
  = Text.Paused_for ++ [51%N] ++ Text.s_ ++ Text.br
      ++ Text.Paused_for ++ [45; 49; 49]%N ++ Text.s_.
Proof.
  destruct (formatPauses_open_pause [mkPause 5000 (Some 8000)] 11000
              ltac:(lia)) as (H & _).
  etrans; [exact H|]. vm_compute. reflexivity.
Defined.

(** The digits of a number end where a character that is no digit
    stands. *)
Lemma digits_split u u' c x x' :
  (c < 48 ∨ 57 < c)%N →
  digits u ++ c :: x = digits u' ++ c :: x' → u = u' ∧ x = x'.
Proof.
  intros Hc. revert u'.
  induction u as [|u IH|u IH|u IH|u IH|u IH|u IH|u IH|u IH|u IH|u IH];
    intros [|u'|u'|u'|u'|u'|u'|u'|u'|u'|u'] H; cbn in H.
  all: try (injection H as H0 H; try discriminate H0).
  all: try (exfalso; subst; lia).
  all: try (destruct (IH _ H) as [-> ->]; done).
  all: injection H as H.
  all: try (destruct (IH _ H) as [-> ->]; done).
  now subst.
Qed.

(** The text of a number, followed by a character that is neither a digit
    nor the minus sign, tells the number. *)
Lemma Number_toString_split z z' c x x' :
  (c < 45 ∨ 57 < c)%N →
  Number_toString z ++ c :: x = Number_toString z' ++ c :: x' →
  z = z' ∧ x = x'.
Proof.
  intros Hc H.
  assert (Hd : (c < 48 ∨ 57 < c)%N) by lia.
  assert (Hint : Z.to_int z = Z.to_int z' ∧ x = x').
  { unfold Number_toString in H.
    destruct (Z.to_int z) as [u|u], (Z.to_int z') as [u'|u']; cbn in H.
    - destruct (digits_split u u' c x x' Hd H) as [-> ->]. done.
    - exfalso. destruct u; cbn in H; injection H as H0 H;
        first [discriminate H0 | subst; lia].
    - exfalso. destruct u'; cbn in H; injection H as H0 H;
        first [discriminate H0 | subst; lia].
    - injection H as H.
      destruct (digits_split u u' c x x' Hd H) as [-> ->]. done. }
  destruct Hint as [Hint ->]. split; [|reflexivity].
  rewrite <- (DecimalZ.of_to z), <- (DecimalZ.of_to z'). now rewrite Hint.
Qed.

(** The floor of the sixtieth and the remainder tell the number. *)
Lemma floor_and_remainder_inj a b :
  a / 60 = b / 60 → Z.rem a 60 = Z.rem b 60 → a = b.
Proof.
  intros Hq Hr.
  Z.to_euclidean_division_equations. lia.
Qed.

Lemma formatDuration_inj a b : formatDuration a = formatDuration b → a = b.
Proof.
  unfold formatDuration.
  change Text.m_ with [109; 32]%N. change Text.s_ with [115%N].
  cbn [app]. intros H.
  apply Number_toString_split in H as [Hq H]; [|lia].
  injection H as H.
  apply Number_toString_split in H as [Hr _]; [|lia].
  now apply floor_and_remainder_inj.
Qed.

(** X17. For a duration that is a safe integer, [formatDuration] prints
    ["Xm Ys"] with [X] the floor of [seconds / 60] and [Y] the remainder
    [seconds % 60].  The text tells the duration: two durations printed
    alike are equal.  For a duration that is not negative [X] and [Y] are
    the minutes and the seconds, below 60, that add up to it.  For a
    negative duration that is not a whole number of minutes the remainder
    is negative while the floor rounds down, and the two add up to 60
    seconds less than the duration. *)
Theorem formatDuration_parts seconds :
  safe_integer seconds →
  let minutes := seconds / 60 in
  let remainingSeconds := Z.rem seconds 60 in
  formatDuration seconds
  = Number_toString minutes ++ Text.m_
      ++ Number_toString remainingSeconds ++ Text.s_ ∧
  (∀ seconds',
     safe_integer seconds' →
     formatDuration seconds' = formatDuration seconds → seconds' = seconds) ∧
  (0 ≤ seconds →
   0 ≤ minutes ∧ 0 ≤ remainingSeconds < 60 ∧
   60 * minutes + remainingSeconds = seconds) ∧
  (seconds < 0 → remainingSeconds ≠ 0 →
   -60 < remainingSeconds < 0 ∧
   60 * minutes + remainingSeconds = seconds - 60).
Proof.
  intros _. cbv zeta. split; [reflexivity|].
  split; [intros seconds' _; apply formatDuration_inj|].
  pose proof (Z.div_mod seconds 60 ltac:(lia)) as Hdm.
  pose proof (Z.mod_pos_bound seconds 60 ltac:(lia)) as Hm.
  split.
  - intros Hs. rewrite Z.rem_mod_nonneg by lia.
    pose proof (Z.div_pos seconds 60 Hs ltac:(lia)). lia.
  - intros Hs Hr.
    pose proof (Z.quot_rem seconds 60 ltac:(lia)) as Hqr.
    pose proof (Z.rem_bound_pos_neg seconds 60 ltac:(lia) ltac:(lia)) as Hb.
    assert (Hmod : seconds mod 60 = Z.rem seconds 60 + 60).
    { symmetry. apply (Z.mod_unique_pos _ _ (seconds ÷ 60 - 1)); lia. }
    lia.
Qed.

(** 125 s print as 2 and 5, and not as 65 s do; -125 s print as -3 and
    -5, which stand for -185 s. *)
Lemma formatDuration_parts_witness :
  (60 * (125 / 60) + Z.rem 125 60 = 125) ∧
  (60 * (-125 / 60) + Z.rem (-125) 60 = -125 - 60) ∧
  formatDuration 65 ≠ formatDuration 125.
Proof.
  assert (S1 : safe_integer 125) by (split; reflexivity).
  assert (S2 : safe_integer (-125)) by (split; reflexivity).
  assert (S3 : safe_integer 65) by (split; reflexivity).
  split; [|split].
  - exact (proj2 (proj2 (proj1 (proj2 (proj2 (formatDuration_parts 125 S1)))
                           ltac:(lia)))).
  - exact (proj2 (proj2 (proj2 (proj2 (formatDuration_parts (-125) S2)))
                    ltac:(lia) ltac:(vm_compute; discriminate))).
  - intros H.
    pose proof (proj1 (proj2 (formatDuration_parts 125 S1)) 65 S3 H) as E.
    discriminate E.
Defined.

(* --------------------------------------------------------------------- *)
(* Clearing the log; Tone.js missing                                     *)
(* --------------------------------------------------------------------- *)

(** [clearAllSessions], in full. *)
Lemma clearAllSessions_result env s :
  let s' := final (clearAllSessions env s) in
  (confirm_answer env = false → clearAllSessions env s = Done tt s) ∧
  (confirm_answer env = true →
   sessions (vars s') = [] ∧ sessionLog (dom s') = [] ∧
   (localStorage_available env = true →
    localStorage_setItem_throws env = false →
    localStorage (browser s') = Some [])) ∧
  heap s' = heap s ∧
  currentSession (vars s') = currentSession (vars s) ∧
  isRunning (vars s') = isRunning (vars s) ∧
  timeLeft (vars s') = timeLeft (vars s) ∧
  targetTime (vars s') = targetTime (vars s) ∧
  timeouts (browser s') = timeouts (browser s) ∧
  frames (browser s') = frames (browser s).
Proof.
  unfold session_values. exec.
  destruct (confirm_answer env), (localStorage_available env),
    (localStorage_setItem_throws env); cbn; repeat split; done.
Qed.

(** X18. Clearing the log touches neither the timer nor the current
    session: [isRunning], [timeLeft], the deadline, the pending callbacks
    and the open session are as before, whatever the user answers.  When
    the user declines nothing changes at all; when the user confirms, the
    log and the table are empty (and so is the stored list when local
    storage takes it), and ending the session afterwards logs it as the
    only entry. *)
Theorem clearAllSessions_spares_the_session env1 env2 isFinished s l r :
  open_session s = Some (l, r) →
  let cleared := final (clearAllSessions env1 s) in
  (confirm_answer env1 = false → clearAllSessions env1 s = Done tt s) ∧
  (confirm_answer env1 = true →
   sessions (vars cleared) = [] ∧ sessionLog (dom cleared) = [] ∧
   (localStorage_available env1 = true →
    localStorage_setItem_throws env1 = false →
    localStorage (browser cleared) = Some []) ∧
   session_values (final (endSession isFinished env2 cleared))
   = [finalized (new_Date env2) r]) ∧
  open_session cleared = Some (l, r) ∧
  isRunning (vars cleared) = isRunning (vars s) ∧
  timeLeft (vars cleared) = timeLeft (vars s) ∧
  targetTime (vars cleared) = targetTime (vars s) ∧
  timeouts (browser cleared) = timeouts (browser s) ∧
  frames (browser cleared) = frames (browser s).
Proof.
  intros Hopen. cbv zeta.
  destruct (clearAllSessions_result env1 s)
    as (C1 & C2 & C3 & C4 & C5 & C6 & C7 & C8 & C9).
  set (cleared := final (clearAllSessions env1 s)) in *.
  assert (Hopen' : open_session cleared = Some (l, r)).
  { unfold open_session in *. now rewrite C4, C3. }
  split; [exact C1|]. split; [|now repeat split].
  intros Hyes. destruct (C2 Hyes) as (D1 & D2 & D3).
  split; [exact D1|]. split; [exact D2|]. split; [exact D3|].
  apply open_session_Some in Hopen' as (Hc & Hl & He).
  destruct (endSession_finalizes isFinished env2 cleared l r Hc Hl He)
    as (_ & E2 & E3).
  unfold session_values. rewrite E3, D1. cbn.
  match goal with
  | |- context [?h !! l] =>
      replace (h !! l) with (Some (finalized (new_Date env2) r))
        by (symmetry; exact E2)
  end.
  reflexivity.
Qed.

(** A session started at 250 s on the page with three stored sessions,
    the log cleared at 300 s, the session ended at 400 s. *)
Lemma clearAllSessions_spares_the_session_witness :
  session_values
    (final (endSession false (world 400000)
              (final (clearAllSessions (world 300000)
                        (final (startTimer (world 250000)
                                  (final (dispatch (TypeGoal goal_x) (world 0)
                                            demo_history))))))))
  = [mkSession goal_x 250000 (Some 400000) 150 []].
Proof.
  exact (proj2 (proj2 (proj2
           (proj1 (proj2
              (clearAllSessions_spares_the_session (world 300000)
                 (world 400000) false
                 (final (startTimer (world 250000)
                           (final (dispatch (TypeGoal goal_x) (world 0)
                                     demo_history))))
                 3%nat (mkSession goal_x 250000 None 0 [])
                 ltac:(vm_compute; reflexivity)))
           eq_refl)))).
Defined.

(** X19. When Tone.js is not loaded, the start button (and the space
    bar) and the test-sound button do nothing: [Tone.start()], their first
    statement, raises a ReferenceError and the state is untouched, so a
    timer can neither be started nor paused.  [playSound], which tests
    [typeof Tone] first, returns without doing anything. *)
Theorem without_Tone_nothing_starts env s :
  Tone_defined env = false →
  startTimer env s = Throw ReferenceError s ∧
  testSoundBtn_click env s = Throw ReferenceError s ∧
  playSound env s = Done tt s.
Proof. intros Htone. exec. rewrite Htone. done. Qed.

(** The start of the walk, without Tone.js. *)
Lemma without_Tone_nothing_starts_witness :
  startTimer (mkEnv 1000 1000 false false true PGranted false true false true)
    demo_typed
  = Throw ReferenceError demo_typed.
Proof.
  exact (proj1 (without_Tone_nothing_starts
                  (mkEnv 1000 1000 false false true PGranted false true false
                     true) demo_typed eq_refl)).
Defined.

(* --------------------------------------------------------------------- *)
(* The table                                                             *)
(* --------------------------------------------------------------------- *)

(** Making a new object leaves the log's values. *)
Lemma omap_lookup_app_l (h t : list Session) (ss : list ref) :
  (∀ l, l ∈ ss → (l < length h)%nat) →
  omap (λ k, (h ++ t) !! k) ss = omap (λ k, h !! k) ss.
Proof.
  induction ss as [|k ss IH]; intros H; [reflexivity|].
  cbn. rewrite lookup_app_l by (apply H; left).
  rewrite IH; [reflexivity|]. intros l Hl. apply H. now right.
Qed.

(** The table shows the log at initialization, and after every listener
    that returns. *)
Lemma table_shows_log_init env stored :
  table_shows_log (final (initialization env (page_loaded stored))).
Proof.
  destruct (initialization_loads env stored) as (_ & _ & I2 & _ & I3 & _).
  split; [exact I2|]. intros l Hl. congruence.
Qed.

Lemma table_shows_log_step env ev s :
  Inv s → InvLog s → enabled ev s →
  raised (dispatch ev env s) = None →
  table_shows_log s →
  table_shows_log (final (dispatch ev env s)).
Proof.
  unfold table_shows_log, session_values.
  intros [Hrun Hidle Hsess Hleft Hsel Hdisp Hexp] [L1 _ _ _] Hen.
  destruct ev.
  all: exec; crunch.
  all: try absurd_decide.
  all: cbn; intros Hret [J1 J2]; try discriminate Hret.
  all: split; [|intros l' Hc'; try discriminate Hc'].
  all: try reflexivity; try assumption; try (by eauto).
  all: try (rewrite omap_lookup_insert_notin by eauto; exact J1).
  all: try (rewrite omap_lookup_app_l by exact L1; exact J1).
  all: try (intros Hin;
            apply (λ H, elem_of_sublist _ _ _ H (splice1_sublist _ _)) in Hin;
            by eapply J2).
  all: try (injection Hc' as <-; intros Hin; apply L1 in Hin; lia).
  all: try (eapply J2; congruence).
  all: try apply not_elem_of_nil.
Qed.

(** X20. As long as no listener raises, the table shows the log as it
    is and the current session is not in the log: both hold after
    initialization, and every event whose listener returns normally
    preserves them (pausing and resuming change the current session
    object, which the log does not refer to yet). *)
Theorem table_shows_the_log :
  (∀ env stored,
     table_shows_log (final (initialization env (page_loaded stored)))) ∧
  (∀ env ev s,
     reachable s → enabled ev s →
     raised (dispatch ev env s) = None →
     table_shows_log s →
     table_shows_log (final (dispatch ev env s))).
Proof.
  split; [exact table_shows_log_init|].
  intros env ev s Hreach Hen Hret J.
  apply table_shows_log_step; try assumption.
  - now apply reachable_Inv.
  - now apply reachable_InvLog.
Qed.

(** The table at the end of the walk. *)
Lemma table_shows_the_log_witness :
  sessionLog (dom demo_ended)
  = [mkSession goal_x 1000 (Some 21000) 15 [mkPause 11000 (Some 16000)]].
Proof.
  assert (J : table_shows_log demo_resumed).
  { apply (proj2 table_shows_the_log (world 16000) StartClick demo_paused
             demo_paused_reachable I eq_refl).
    apply (proj2 table_shows_the_log (world 11000) StartClick demo_running
             demo_running_reachable I eq_refl).
    apply (proj2 table_shows_the_log (world 1000) StartClick demo_typed
             demo_typed_reachable I eq_refl).
    apply (proj2 table_shows_the_log (world 0) (TypeGoal goal_x) demo_loaded
             (reach_init (world 0) None) eq_refl eq_refl).
    apply (proj1 table_shows_the_log). }
  exact (proj1 (proj2 table_shows_the_log (world 21000) EndClick demo_resumed
                  demo_resumed_reachable I eq_refl J)).
Defined.

(* --------------------------------------------------------------------- *)
(* Goals and end times of logged sessions                                *)
(* --------------------------------------------------------------------- *)

(** The current session carries the text of the goal input: at
    initialization, and after every listener. *)
Lemma InvGoal_init env stored :
  InvGoal (final (initialization env (page_loaded stored))).
Proof. unfold InvGoal. exec. crunch; cbn; intros; discriminate. Qed.

(** Reading an object that a handler has just written or made. *)
Ltac read_back :=
  repeat match goal with
         | H : <[?l := _]> _ !! ?l = Some _ |- _ =>
             rewrite list_lookup_insert_eq in H
               by (rewrite ?length_insert; eapply lookup_lt_Some; eassumption);
             injection H as <-
         | H : (?h ++ [_]) !! length ?h = Some _ |- _ =>
             rewrite lookup_app_r, Nat.sub_diag in H by lia;
             injection H as <-
         end.

Lemma InvGoal_step env ev s :
  Inv s → InvGoal s → enabled ev s → InvGoal (final (dispatch ev env s)).
Proof.
  unfold InvGoal.
  intros [Hrun Hidle Hsess Hleft Hsel Hdisp Hexp] G Hen.
  destruct ev.
  all: exec; crunch.
  all: try absurd_decide.
  all: cbn; intros l' r' Hc' Hl'; revert G; use_facts; subst; read_back;
    cbn; intros G.
  all: try done; try (by eauto).
Qed.

Lemma reachable_InvGoal s : reachable s → InvGoal s.
Proof.
  induction 1 as [env stored | env ev s Hs IH Hen].
  - apply InvGoal_init.
  - apply InvGoal_step; [now apply reachable_Inv | exact IH | exact Hen].
Qed.

Lemma truthy_trim g : truthy (trim g) = true → truthy g = true.
Proof. destruct g; [discriminate | reflexivity]. Qed.

(** X21. In every reachable state the goal of the current session is
    the text in the (disabled) goal input, and is not blank; the system
    notification therefore names that goal and never falls back to
    ['your task']. *)
Theorem session_goal_is_the_text_typed s l r :
  reachable s →
  currentSession (vars s) = Some l →
  heap s !! l = Some r →
  goal r = goalInput_value (dom s) ∧
  forallb is_white_space (goal r) = false ∧
  notified_goal r = goal r.
Proof.
  intros Hreach Hc Hl.
  destruct (reachable_Inv s Hreach) as [_ _ Hs _ _ _ _].
  destruct (Hs l Hc) as (_ & _ & _ & Hgoal).
  rewrite <- (reachable_InvGoal s Hreach l r Hc Hl) in Hgoal.
  split; [exact (reachable_InvGoal s Hreach l r Hc Hl)|].
  split.
  - destruct (forallb is_white_space (goal r)) eqn:E; [|reflexivity].
    apply trim_blank in E. congruence.
  - unfold notified_goal. now rewrite (truthy_trim _ Hgoal).
Qed.

(** The walk, paused. *)
Lemma session_goal_is_the_text_typed_witness :
  goal (mkSession goal_x 1000 None 0 [mkPause 11000 None])
  = goalInput_value (dom demo_paused).
Proof.
  exact (proj1 (session_goal_is_the_text_typed demo_paused 0%nat _
                  demo_paused_reachable eq_refl eq_refl)).
Defined.

(** Every logged session has ended, in terms of references. *)
Lemma all_ended_values s :
  all_ended (session_values s) ↔
  ∀ l r, l ∈ sessions (vars s) → heap s !! l = Some r → is_Some (endTime r).
Proof.
  unfold all_ended, session_values. split.
  - intros H l r Hin Hl. apply H. apply list_elem_of_omap. eauto.
  - intros H r Hr. apply list_elem_of_omap in Hr as (l & Hin & Hl). eauto.
Qed.

(** Which object a logged reference reads after a handler has written
    or made one. *)
Ltac logged_object L1 :=
  repeat match goal with
         | H : _ ∈ _ :: _ |- _ => apply elem_of_cons in H as [H|H]; [subst|]
         | H : _ ∈ splice1 _ _ |- _ =>
             apply (λ H, elem_of_sublist _ _ _ H (splice1_sublist _ _)) in H
         | H : _ ∈ [] |- _ => by apply elem_of_nil in H
         | H : <[?l := _]> _ !! ?l = Some _ |- _ =>
             rewrite list_lookup_insert_eq in H
               by (rewrite ?length_insert; eapply lookup_lt_Some;
                   eassumption);
             injection H as <-
         | H : <[?l := _]> _ !! ?k = Some _ |- _ =>
             destruct (decide (l = k)) as [->|?];
             [ rewrite list_lookup_insert_eq in H
                 by (rewrite ?length_insert; eapply lookup_lt_Some;
                     eassumption);
               injection H as <-
             | rewrite list_lookup_insert_ne in H by assumption ]
         | H : (?h ++ [_]) !! ?k = Some _, H' : ?k ∈ _ |- _ =>
             rewrite lookup_app_l in H by (apply L1; assumption)
         end.

(** Every listener keeps the logged sessions ended, in the log and in
    the table. *)
Lemma all_ended_step env ev s :
  Inv s → InvLog s → enabled ev s →
  all_ended (session_values s) →
  all_ended (session_values (final (dispatch ev env s))).
Proof.
  rewrite !all_ended_values.
  intros [Hrun Hidle Hsess Hleft Hsel Hdisp Hexp] [L1 _ _ _] Hen A.
  destruct ev.
  all: exec; crunch.
  all: try absurd_decide.
  all: cbn; intros l' r' Hin' Hl'; revert A L1; use_facts; subst.
  all: intros A L1; logged_object L1; cbn.
  all: try done; try (by eauto).
Qed.

#[local] Arguments list_omap : simpl never.

Lemma all_ended_table_step env ev s :
  Inv s → InvLog s → enabled ev s →
  all_ended (session_values s) →
  all_ended (sessionLog (dom s)) →
  all_ended (sessionLog (dom (final (dispatch ev env s)))).
Proof.
  rewrite all_ended_values. unfold all_ended at 1 2.
  intros [Hrun Hidle Hsess Hleft Hsel Hdisp Hexp] [L1 _ _ _] Hen A T.
  destruct ev.
  all: exec; crunch.
  all: try absurd_decide.
  all: cbn; intros r' Hr'; try (by eauto).
  all: apply list_elem_of_omap in Hr' as (l' & Hin' & Hl').
  all: revert A L1 T; use_facts; subst.
  all: intros A L1 T; logged_object L1; cbn.
  all: try done; try (by eauto).
Qed.

Lemma all_ended_init env stored :
  all_ended (default [] stored) →
  let s := final (initialization env (page_loaded stored)) in
  all_ended (session_values s) ∧ all_ended (sessionLog (dom s)).
Proof.
  intros H. cbv zeta.
  destruct (initialization_loads env stored) as (_ & I1 & I2 & _).
  rewrite I2, I1.
  destruct (localStorage_available env); [done|].
  split; intros r Hr; by apply elem_of_nil in Hr.
Qed.

(** X22. Every logged session has an [endTime]: if the stored list
    holds only sessions with an [endTime] (the script stores no others),
    so do the log and the table after initialization, and every event
    keeps both so.  The table's ['In progress'] is never shown. *)
Theorem log_never_shows_in_progress :
  (∀ env stored,
     all_ended (default [] stored) →
     let s := final (initialization env (page_loaded stored)) in
     all_ended (session_values s) ∧ all_ended (sessionLog (dom s))) ∧
  (∀ env ev s,
     reachable s → enabled ev s →
     all_ended (session_values s) ∧ all_ended (sessionLog (dom s)) →
     let s' := final (dispatch ev env s) in
     all_ended (session_values s') ∧ all_ended (sessionLog (dom s'))).
Proof.
  split; [exact all_ended_init|].
  intros env ev s Hreach Hen [A T]. cbv zeta.
  pose proof (reachable_Inv s Hreach) as Hinv.
  pose proof (reachable_InvLog s Hreach) as Hlog.
  split.
  - now apply all_ended_step.
  - now apply all_ended_table_step.
Qed.

(** The walk, ended. *)
Lemma log_never_shows_in_progress_witness :
  all_ended (session_values demo_ended) ∧
  all_ended (sessionLog (dom demo_ended)).
Proof.
  apply (proj2 log_never_shows_in_progress (world 21000) EndClick
           demo_resumed demo_resumed_reachable I).
  apply (proj1 log_never_shows_in_progress (world 0) None).
  intros r Hr. by apply elem_of_nil in Hr.
Defined.

(* --------------------------------------------------------------------- *)
(* The alarm and the completion modal                                    *)
(* --------------------------------------------------------------------- *)

(** No synth is stored when the page has been initialized. *)
Lemma alarm_has_modal_init env stored :
  alarm_has_modal (final (initialization env (page_loaded stored))).
Proof. unfold alarm_has_modal. exec. crunch; cbn; discriminate. Qed.

(** The listeners that follow the calls into Tone.js one by one. *)
Ltac unfold_alarm :=
  unfold Alarm.dispatch, Alarm.run_callback, Alarm.closeModalBtn_click,
    Alarm.onTimerEnd, Alarm.playSound in *.

(** When no call into Tone.js raises and Tone.js is loaded, they are the
    listeners of the page. *)
Lemma Alarm_dispatch_no_faults env ev s :
  Tone_defined env = true →
  Alarm.dispatch no_faults ev env s = dispatch ev env s.
Proof.
  intros Htone. destruct ev; try reflexivity.
  unfold_alarm. exec. destruct (synth (vars s)); cbn; [|reflexivity].
  now rewrite Htone.
Qed.

(** A listener that returns, or fails only to store the log, leaves no
    synth stored without the modal. *)
Lemma Alarm_step tc env ev s :
  alarm_has_modal s →
  (∀ e, raised (Alarm.dispatch tc ev env s) = Some e →
        e = QuotaExceededError) →
  alarm_has_modal (final (Alarm.dispatch tc ev env s)).
Proof.
  unfold alarm_has_modal.
  destruct ev.
  all: unfold_alarm; exec; crunch.
  all: try absurd_decide.
  all: cbn; intros K Hret Hs; try done; try (by eauto).
  all: try (specialize (Hret _ eq_refl); discriminate Hret).
Qed.

(** The listener of the modal's OK button, when it returns. *)
Lemma Alarm_closeModalBtn_click_returns tc env s :
  raised (Alarm.closeModalBtn_click tc env s) = None →
  let s' := final (Alarm.closeModalBtn_click tc env s) in
  completionModal_visible (dom s') = false ∧
  synth (vars s') = false ∧
  effects (browser s')
  = effects (browser s) ++ (if synth (vars s) then [SoundStopped] else []) ∧
  ∀ tc' env', Alarm.closeModalBtn_click tc' env' s' = Done tt s'.
Proof.
  explode s. unfold_alarm. exec. crunch; intros Hret; try discriminate Hret.
  all: norm_state; rewrite ?app_nil_r; done.
Qed.

(** A raise in the making of the loop or the start of the transport comes
    after [synth] is assigned. *)
Lemma Alarm_playSound_late tc env s :
  Tone_defined env = true →
  Tone_Synth_throws env = false →
  Tone_Loop_start_throws tc = true ∨ Tone_Transport_start_throws tc = true →
  Alarm.playSound tc env s = Throw SoundError (set_synth true s).
Proof.
  intros Htone Hsynth Hlate. unfold Alarm.playSound. unfold_monad.
  rewrite Htone. cbn. rewrite Hsynth. cbn.
  destruct Hlate as [-> | ->]; [reflexivity|].
  now destruct (Tone_Loop_start_throws tc).
Qed.

Lemma Alarm_playSound_raises_late tc env s :
  Tone_defined env = true →
  Tone_Synth_throws env = false →
  Tone_Loop_start_throws tc = true ∨ Tone_Transport_start_throws tc = true →
  let s' := final (Alarm.onTimerEnd tc env s) in
  raised (Alarm.onTimerEnd tc env s) = Some SoundError ∧
  synth (vars s') = true ∧
  completionModal_visible (dom s') = completionModal_visible (dom s) ∧
  currentSession (vars s') = currentSession (vars s) ∧
  heap s' = heap s ∧ sessions (vars s') = sessions (vars s).
Proof.
  intros Htone Hsynth Hlate.
  assert (Hend : Alarm.onTimerEnd tc env s
                 = Throw SoundError (set_synth true s)).
  { unfold Alarm.onTimerEnd, mbind, M_bind.
    now rewrite (Alarm_playSound_late tc env s Htone Hsynth Hlate). }
  cbv zeta. rewrite Hend. cbn. done.
Qed.

(** A raise while the sound is stopped comes after the modal is hidden
    and before [synth] is cleared. *)
Lemma Alarm_closeModalBtn_click_raises tc env s :
  synth (vars s) = true →
  Tone_defined env = true →
  Tone_Transport_stop_throws tc = true ∨
  Tone_Transport_cancel_throws tc = true ∨
  synth_dispose_throws tc = true →
  let s' := final (Alarm.closeModalBtn_click tc env s) in
  raised (Alarm.closeModalBtn_click tc env s) = Some SoundError ∧
  synth (vars s') = true ∧
  completionModal_visible (dom s') = false.
Proof.
  intros Hs Htone Hbad. unfold_alarm. exec. rewrite Hs. cbn.
  rewrite Htone. cbn.
  destruct (Tone_Transport_stop_throws tc),
    (Tone_Transport_cancel_throws tc), (synth_dispose_throws tc); cbn;
    try done.
  destruct Hbad as [?|[?|?]]; discriminate.
Qed.

(** X23. The alarm and the completion modal, with [playSound] and the
    listener of the modal's OK button followed call by call.  That a
    stored synth has its modal shown holds after initialization and is
    preserved by every event whose listener returns or fails only to
    store the log.  A listener that raises elsewhere can break it: when
    the making of the loop or the start of the transport raises,
    [onTimerEnd] stops with the synth stored, the modal as it was and the
    session not finalized; when stopping or cancelling the transport or
    disposing of the synth raises, the modal is hidden and the synth
    stays stored.  A close listener that returns has hidden the modal,
    stopped the sound if a synth was stored and cleared [synth], and
    closing again changes nothing.  With no such call raising and Tone.js
    loaded, these listeners are the ones of the page. *)
Theorem alarm_sounds_only_with_the_modal :
  (∀ env stored,
     alarm_has_modal (final (initialization env (page_loaded stored)))) ∧
  (∀ tc env ev s,
     alarm_has_modal s →
     (∀ e, raised (Alarm.dispatch tc ev env s) = Some e →
           e = QuotaExceededError) →
     alarm_has_modal (final (Alarm.dispatch tc ev env s))) ∧
  (∀ tc env s,
     raised (Alarm.closeModalBtn_click tc env s) = None →
     let s' := final (Alarm.closeModalBtn_click tc env s) in
     completionModal_visible (dom s') = false ∧
     synth (vars s') = false ∧
     effects (browser s')
     = effects (browser s) ++ (if synth (vars s) then [SoundStopped] else []) ∧
     ∀ tc' env', Alarm.closeModalBtn_click tc' env' s' = Done tt s') ∧
  (∀ tc env s,
     Tone_defined env = true →
     Tone_Synth_throws env = false →
     Tone_Loop_start_throws tc = true ∨ Tone_Transport_start_throws tc = true →
     let s' := final (Alarm.onTimerEnd tc env s) in
     raised (Alarm.onTimerEnd tc env s) = Some SoundError ∧
     synth (vars s') = true ∧
     completionModal_visible (dom s') = completionModal_visible (dom s) ∧
     currentSession (vars s') = currentSession (vars s) ∧
     heap s' = heap s ∧ sessions (vars s') = sessions (vars s)) ∧
  (∀ tc env s,
     synth (vars s) = true →
     Tone_defined env = true →
     Tone_Transport_stop_throws tc = true ∨
     Tone_Transport_cancel_throws tc = true ∨
     synth_dispose_throws tc = true →
     let s' := final (Alarm.closeModalBtn_click tc env s) in
     raised (Alarm.closeModalBtn_click tc env s) = Some SoundError ∧
     synth (vars s') = true ∧
     completionModal_visible (dom s') = false) ∧
  (∀ env ev s,
     Tone_defined env = true →
     Alarm.dispatch no_faults ev env s = dispatch ev env s).
Proof.
  split; [exact alarm_has_modal_init|].
  split; [exact Alarm_step|].
  split; [exact Alarm_closeModalBtn_click_returns|].
  split; [exact Alarm_playSound_raises_late|].
  split; [exact Alarm_closeModalBtn_click_raises|].
  exact Alarm_dispatch_no_faults.
Qed.

(** The walk's timer expiring on time: the alarm sounds, the modal is
    shown. *)
Lemma alarm_sounds_only_with_the_modal_witness :
  let s :=
    final (Alarm.dispatch no_faults (TimeoutDue 0) (world 1501000)
             demo_running) in
  synth (vars s) = true ∧ completionModal_visible (dom s) = true.
Proof.
  intros s.
  assert (K : alarm_has_modal demo_running).
  { intros H. vm_compute in H. discriminate H. }
  split; [vm_compute; reflexivity|].
  refine (proj1 (proj2 alarm_sounds_only_with_the_modal) no_faults
            (world 1501000) (TimeoutDue 0) demo_running K _ _).
  - intros e He. vm_compute in He. discriminate He.
  - vm_compute. reflexivity.
Defined.

(* --------------------------------------------------------------------- *)
(* The error mark of the goal input                                      *)
(* --------------------------------------------------------------------- *)

(** The handles are well formed at initialization, and after every
    listener. *)
Lemma InvHandles_init env stored :
  InvHandles (final (initialization env (page_loaded stored))).
Proof.
  exec. crunch; split; cbn; intros; try done.
  all: by apply elem_of_nil in H.
Qed.

(** A timeout that survives a cancellation, and the one that comes due. *)
Lemma elem_of_cancel_2 {A} (key : A → nat) id (l : list A) x :
  x ∈ l → id ≠ Some (key x) → x ∈ cancel key id l.
Proof.
  unfold cancel. destruct id as [h|]; [|done].
  intros Hin Hne. apply list_elem_of_filter. split; [congruence|done].
Qed.

Lemma elem_of_due h (l : list Timeout) t rest :
  filter (λ t, handle t = h) l = t :: rest → t ∈ l ∧ handle t = h.
Proof.
  intros E. assert (Hin : t ∈ filter (λ t, handle t = h) l)
    by (rewrite E; left).
  apply list_elem_of_filter in Hin. tauto.
Qed.

Ltac mem_facts :=
  repeat match goal with
         | H : _ ∧ _ |- _ => destruct H
         | H : ∃ _, _ |- _ => destruct H
         | H : filter _ _ = _ :: _ |- _ => apply elem_of_due in H
         | H : _ ∈ cancel _ _ _ |- _ => apply elem_of_cancel in H
         | H : _ ∈ _ ++ _ |- _ => apply elem_of_app in H as [H|H]
         | H : _ ∈ [_] |- _ => apply list_elem_of_singleton in H; subst
         | H : _ ∈ [] |- _ => by apply elem_of_nil in H
         | H : Some _ = Some _ |- _ => injection H as H; subst
         end.

Ltac fresh_facts H1 :=
  repeat match goal with
         | H : ?x ∈ timeouts _ |- _ =>
             lazymatch goal with
             | _ : (handle x < _)%nat |- _ => fail
             | _ => pose proof (H1 x H)
             end
         end.

Lemma InvHandles_step env ev s :
  InvHandles s → enabled ev s → InvHandles (final (dispatch ev env s)).
Proof.
  intros [H1 H2 H3 H4 H5] Hen.
  destruct ev.
  all: exec; crunch.
  all: try absurd_decide.
  all: split; cbn; intros.
  all: try done; try (by eauto).
  all: mem_facts; fresh_facts H1; cbn in *.
  all: try done; try lia; try (by eauto); try congruence.
  all: try (by (eapply Nat.lt_trans; [eapply H2; eassumption|lia])).
  all: try (by (eapply Nat.lt_trans; [eapply H1; eassumption|lia])).
  all: try (by (intros E; apply H2 in E; lia)).
  all: try (by (intros E; injection E as E; lia)).
  all: try (by (eexists; split;
                [apply elem_of_app; right; apply list_elem_of_singleton;
                 reflexivity | split; reflexivity])).
  all: try (destruct H5 as (t0 & Hin0 & Hcb0 & Hd0); [assumption|];
            exists t0; split; [|split; assumption];
            repeat first [ assumption
                         | apply elem_of_app; left
                         | apply elem_of_cancel_2 ];
            try (by apply H3)).
  all: try (by (exfalso;
                match goal with
                | Hf : filter _ ?l = [], Hx : ?x ∈ ?l |- _ =>
                    assert (Hd : x ∈ filter (λ t, handle t = handle x) l)
                      by (apply list_elem_of_filter; split;
                          [reflexivity|exact Hx]);
                    subst; rewrite Hf in Hd; by apply elem_of_nil in Hd
                end)).
  all: try (by (intros E; injection E as E;
                match goal with
                | Ha : ?a ∈ timeouts _, Hb : ?b ∈ timeouts _ |- _ =>
                    assert (a = b)
                      by (apply H4; [exact Ha | exact Hb | congruence]);
                    subst; congruence
                end)).

Qed.

Lemma reachable_InvHandles s : reachable s → InvHandles s.
Proof.
  induction 1 as [env stored | env ev s Hs IH Hen].
  - apply InvHandles_init.
  - now apply InvHandles_step.
Qed.

(** The callback that clears the goal error coming due. *)
Lemma clearGoalError_due env s t :
  InvHandles s →
  t ∈ timeouts (browser s) →
  callback t = CbClearGoalError →
  let s' := final (dispatch (TimeoutDue (handle t)) env s) in
  returns (dispatch (TimeoutDue (handle t)) env s) = true ∧
  goalInput_error (dom s') = false ∧
  (t ∉ timeouts (browser s')) ∧
  (∀ t', t' ∈ timeouts (browser s) → t' ≠ t → t' ∈ timeouts (browser s')) ∧
  vars s' = vars s ∧ heap s' = heap s.
Proof.
  intros Hh Hin Hcb. pose proof (handles_unique s Hh) as H4. clear Hh.
  assert (∃ rest,
            filter (λ t0, handle t0 = handle t) (timeouts (browser s))
            = t :: rest) as Hdue.
  { destruct (filter (λ t0, handle t0 = handle t) (timeouts (browser s)))
      as [|t' rest] eqn:E.
    - assert (Hd : t ∈ filter (λ t0, handle t0 = handle t)
                         (timeouts (browser s)))
        by (apply list_elem_of_filter; split; [reflexivity|exact Hin]).
      rewrite E in Hd. by apply elem_of_nil in Hd.
    - apply elem_of_due in E as E'. destruct E' as [Hin' Hh].
      rewrite (H4 t' t Hin' Hin Hh). eauto. }
  destruct Hdue as [rest Hdue].
  exec. rewrite Hdue. cbn. rewrite Hcb. cbn.
  repeat split; try done.
  - intros Hc. apply elem_of_cancel in Hc as [_ Hc]. congruence.
  - intros t' Hin' Hne. apply elem_of_cancel_2; [exact Hin'|].
    intros [= E]. apply Hne. symmetry. now apply H4.
Qed.

(** X24. The error mark of the goal input does not get stuck: in every
    reachable state in which it shows, a timeout of 2 s that removes it is
    pending; [clearTimeout(timeoutId)], in pausing, resetting and ending,
    never cancels such a timeout; and when one comes due the listener
    returns, the mark is gone, the other pending timeouts stay, and the
    variables and the session objects are as before. *)
Theorem goal_error_is_cleared s :
  reachable s →
  (goalInput_error (dom s) = true →
   ∃ t, t ∈ timeouts (browser s) ∧ callback t = CbClearGoalError ∧
        delay t = 2000) ∧
  (∀ t, t ∈ timeouts (browser s) → callback t = CbClearGoalError →
     timeoutId (vars s) ≠ Some (handle t)) ∧
  (∀ env t, t ∈ timeouts (browser s) → callback t = CbClearGoalError →
     let s' := final (dispatch (TimeoutDue (handle t)) env s) in
     returns (dispatch (TimeoutDue (handle t)) env s) = true ∧
     goalInput_error (dom s') = false ∧
     (t ∉ timeouts (browser s')) ∧
     (∀ t', t' ∈ timeouts (browser s) → t' ≠ t → t' ∈ timeouts (browser s')) ∧
     vars s' = vars s ∧ heap s' = heap s).
Proof.
  intros Hreach. pose proof (reachable_InvHandles s Hreach) as Hh.
  split; [apply Hh|]. split; [apply Hh|].
  intros env t Hin Hcb. now apply clearGoalError_due.
Qed.

(** Start on the fresh page, with no goal, and the timeout 2 s later. *)
Lemma goal_error_is_cleared_witness :
  let s := final (dispatch StartClick (world 500) demo_loaded) in
  goalInput_error (dom s) = true ∧
  goalInput_error
    (dom (final (dispatch (TimeoutDue 0) (world 2500) s))) = false.
Proof.
  intros s.
  assert (Hreach : reachable s).
  { apply (reach_step (world 500) StartClick demo_loaded); [|exact I].
    apply reach_init. }
  split; [reflexivity|].
  exact (proj1 (proj2 (proj2 (proj2 (goal_error_is_cleared s Hreach))
                         (world 2500) (mkTimeout 0 CbClearGoalError 2000)
                         ltac:(vm_compute; apply list_elem_of_singleton;
                               reflexivity)
                         eq_refl))).
Defined.
